(** * mini-ast-parser: the scanner (Tokenizer.ts) and the recursive-descent
      parser (Parser), embedded and verified.

    Conventions of the embedding.
    - A JavaScript string is a [string]; [source[i]] is [String.get], which
      answers [None] where JavaScript answers [undefined].
    - A JavaScript number that holds an offset is a [number]: a natural
      number or [Infinity] (the parser's placeholder for an open span).
    - A [while] loop or a recursive method takes a [fuel] argument; [None]
      means the fuel ran out, never a result of the program.
    - A [throw] is the [Throw] outcome; a returned value is [Return]. *)

From stdpp Require Import base option list gmap.
From Stdlib Require Import Ascii String Arith Lia.

Local Open Scope string_scope.
Local Open Scope list_scope.

(** ** JavaScript values shared by both files *)

Inductive number : Set :=
  | Num (n : nat)
  | Infinity.

Inductive Exception : Set :=
  | Error (message : string)
  | TypeError.

Inductive Result (A : Type) : Type :=
  | Return (a : A)
  | Throw (e : Exception).
Arguments Return {A} a.
Arguments Throw {A} e.

(** ** Tokenizer.ts *)

Module TokenType.
Inductive t : Set :=
  | Let | Assign | Function | Identifier
  | LeftParen | RightParen | LeftCurly | RightCurly.

Definition eqb (a b : t) : bool :=
  match a, b with
  | Let, Let | Assign, Assign | Function, Function
  | Identifier, Identifier | LeftParen, LeftParen
  | RightParen, RightParen | LeftCurly, LeftCurly
  | RightCurly, RightCurly => true
  | _, _ => false
  end.

(** The enum's members are their own names as strings. *)
Definition toString (a : t) : string :=
  match a with
  | Let => "Let" | Assign => "Assign" | Function => "Function"
  | Identifier => "Identifier" | LeftParen => "LeftParen"
  | RightParen => "RightParen" | LeftCurly => "LeftCurly"
  | RightCurly => "RightCurly"
  end.
End TokenType.

Module Token.
Record t : Set := make {
  type : TokenType.t;
  value : option string;
  start : number;
  end_ : number;
  raw : option string;
}.
End Token.
Abbreviation Token := Token.t.
Abbreviation mkToken := Token.make.

(** What [this.#tokens.push(token)] can receive at run time.  The generator
    table is indexed with [in], which also finds the members inherited from
    [Object.prototype]; calling one of those yields a value that is no
    [Token]. *)
Inductive Pushed : Set :=
  | Tok (t : Token)
  | NumberObject (n : nat)
  | StringValue (s : string)
  | BooleanValue (b : bool)
  | GeneratorTable
  | Undefined.

Module TOKENS_GENERATOR.
Definition let_ (start : nat) : Token :=
  mkToken TokenType.Let (Some "let") (Num start) (Num (start + 3)) None.
Definition assign (start : nat) : Token :=
  mkToken TokenType.Assign (Some "=") (Num start) (Num (start + 1)) None.
Definition function (start : nat) : Token :=
  mkToken TokenType.Function (Some "function") (Num start)
          (Num (start + 8)) None.
Definition leftParen (start : nat) : Token :=
  mkToken TokenType.LeftParen (Some "(") (Num start) (Num (start + 1)) None.
Definition rightParen (start : nat) : Token :=
  mkToken TokenType.RightParen (Some ")") (Num start) (Num (start + 1)) None.
Definition leftCurly (start : nat) : Token :=
  mkToken TokenType.LeftCurly (Some "{") (Num start) (Num (start + 1)) None.
Definition rightCurly (start : nat) : Token :=
  mkToken TokenType.RightCurly (Some "}") (Num start) (Num (start + 1)) None.
Definition identifier (start : nat) (value : string) : Token :=
  mkToken TokenType.Identifier (Some value) (Num start)
          (Num (start + String.length value)) None.

(** The table's own keys, in declaration order. *)
Definition ownKeys : list string :=
  ["let"; "assign"; "function"; "leftParen"; "rightParen"; "leftCurly";
   "rightCurly"; "identifier"].

(** The members an object literal inherits from [Object.prototype]. *)
Definition inheritedKeys : list string :=
  ["constructor"; "hasOwnProperty"; "isPrototypeOf";
   "propertyIsEnumerable"; "toLocaleString"; "toString"; "valueOf";
   "__defineGetter__"; "__defineSetter__"; "__lookupGetter__";
   "__lookupSetter__"; "__proto__"].

(** [key in TOKENS_GENERATOR]. *)
Definition has (key : string) : bool :=
  existsb (String.eqb key) (ownKeys ++ inheritedKeys).

(** [TOKENS_GENERATOR[key](start)], for a [key] that [has] accepts: the
    call passes one argument, so [identifier] reads [value.length] of
    [undefined]; the inherited members are the standard ones. *)
Definition call (key : string) (start : nat) : Result Pushed :=
  if String.eqb key "let" then Return (Tok (let_ start))
  else if String.eqb key "assign" then Return (Tok (assign start))
  else if String.eqb key "function" then Return (Tok (function start))
  else if String.eqb key "leftParen" then Return (Tok (leftParen start))
  else if String.eqb key "rightParen" then Return (Tok (rightParen start))
  else if String.eqb key "leftCurly" then Return (Tok (leftCurly start))
  else if String.eqb key "rightCurly" then Return (Tok (rightCurly start))
  else if String.eqb key "identifier" then Throw TypeError
  else if String.eqb key "constructor" then Return (NumberObject start)
  else if String.eqb key "hasOwnProperty" then Return (BooleanValue false)
  else if String.eqb key "isPrototypeOf" then Return (BooleanValue false)
  else if String.eqb key "propertyIsEnumerable"
       then Return (BooleanValue false)
  else if String.eqb key "toLocaleString"
       then Return (StringValue "[object Object]")
  else if String.eqb key "toString"
       then Return (StringValue "[object Object]")
  else if String.eqb key "valueOf" then Return GeneratorTable
  else if String.eqb key "__lookupGetter__" then Return Undefined
  else if String.eqb key "__lookupSetter__" then Return Undefined
  else Throw TypeError.
End TOKENS_GENERATOR.

(** The [Map] of the five one-character tokens; [None] is a missing key. *)
Definition KNOWN_SINGLE_CHAR_TOKENS (char : ascii) : option (nat -> Token) :=
  if Ascii.eqb char "(" then Some TOKENS_GENERATOR.leftParen
  else if Ascii.eqb char ")" then Some TOKENS_GENERATOR.rightParen
  else if Ascii.eqb char "{" then Some TOKENS_GENERATOR.leftCurly
  else if Ascii.eqb char "}" then Some TOKENS_GENERATOR.rightCurly
  else if Ascii.eqb char "=" then Some TOKENS_GENERATOR.assign
  else None.

(** [KNOWN_SINGLE_CHAR_TOKENS.has(char)]. *)
Definition isSingleCharToken (char : option ascii) : bool :=
  match char ≫= KNOWN_SINGLE_CHAR_TOKENS with
  | Some _ => true
  | None => false
  end.

(** [identifier += currentChar]: [undefined] is appended as its name. *)
Definition charToString (char : option ascii) : string :=
  match char with
  | Some c => String c EmptyString
  | None => "undefined"
  end.

Definition isSpace (char : option ascii) : bool :=
  match char with
  | Some c => Ascii.eqb c " "
  | None => false
  end.

Section Scanner.
(** [isAlpha] comes from [./utils], which is not among the sources: the
    scanner is embedded over any such predicate.  It is applied to
    [source[i]], hence also to [undefined] one past the last letter. *)
Variable isAlpha : option ascii -> bool.

(** The inner [while (isAlpha(currentChar))] loop; it answers the
    collected text and the cursor. *)
Fixpoint scanLetters (fuel : nat) (source identifier : string)
    (currentIndex : nat) (currentChar : option ascii)
    : option (string * nat) :=
  match fuel with
  | O => None
  | S fuel' =>
      if isAlpha currentChar then
        scanLetters fuel' source (identifier ++ charToString currentChar)
          (S currentIndex) (String.get (S currentIndex) source)
      else Some (identifier, currentIndex)
  end.

(** The outer [while (this.#currentIndex < this.#source.length)] loop,
    on the fields [#tokens] and [#currentIndex]. *)
Fixpoint tokenizeLoop (fuel : nat) (source : string)
    (tokens : list Pushed) (currentIndex : nat)
    : option (Result (list Pushed)) :=
  match fuel with
  | O => None
  | S fuel' =>
      if (currentIndex <? String.length source)%nat then
        let currentChar := String.get currentIndex source in
        let startIndex := currentIndex in
        if isSpace currentChar then
          tokenizeLoop fuel' source tokens (S currentIndex)
        else if isAlpha currentChar then
          match scanLetters fuel' source "" currentIndex currentChar with
          | None => None
          | Some (identifier, currentIndex') =>
              if TOKENS_GENERATOR.has identifier then
                match TOKENS_GENERATOR.call identifier startIndex with
                | Return token =>
                    tokenizeLoop fuel' source (tokens ++ [token])
                      currentIndex'
                | Throw e => Some (Throw e)
                end
              else
                tokenizeLoop fuel' source
                  (tokens ++
                   [Tok (TOKENS_GENERATOR.identifier startIndex identifier)])
                  currentIndex'
          end
        else if isSingleCharToken currentChar then
          match currentChar ≫= KNOWN_SINGLE_CHAR_TOKENS with
          | Some generator =>
              tokenizeLoop fuel' source
                (tokens ++ [Tok (generator startIndex)]) (S currentIndex)
          | None => Some (Throw TypeError)
          end
        else tokenizeLoop fuel' source tokens currentIndex
      else Some (Return tokens)
  end.

(** [new Tokenizer(input).tokenize()]. *)
Definition tokenize (fuel : nat) (input : string)
    : option (Result (list Pushed)) :=
  tokenizeLoop fuel input [] 0.

Definition tokenizeReturns (input : string) (r : Result (list Pushed))
    : Prop :=
  exists fuel, tokenize fuel input = Some r.

Definition tokenizeDiverges (input : string) : Prop :=
  forall fuel, tokenize fuel input = None.

(** [w] is the maximal run of letters of [source] at [i]. *)
Definition RunAt (source : string) (i : nat) (w : string) : Prop :=
  (forall k, (k < String.length w)%nat ->
     String.get (i + k) source = String.get k w /\
     isAlpha (String.get k w) = true) /\
  isAlpha (String.get (i + String.length w) source) = false.
End Scanner.

(** Modelled from the spec: [isAlpha] of [./utils] is missing; the spec
    calls what it accepts "alphabetic characters" and has the scanner stop
    at the end of the input, so it is read as the ASCII letters and as
    false on [undefined]. *)
Definition isAlpha (char : option ascii) : bool :=
  match char with
  | Some c =>
      let n := nat_of_ascii c in
      (((97 <=? n) && (n <=? 122)) || ((65 <=? n) && (n <=? 90)))%nat
  | None => false
  end.

(** ** Parser *)

Inductive NodeType : Set :=
  | NProgram | NVariableDeclaration | NVariableDeclarator | NIdentifier
  | NFunctionExpression | NBlockStatement.

(** [name] is [token.value!]: the assertion is erased at run time, so a
    token without a value yields a name that is [undefined] ([None]). *)
Record Identifier : Set := mkIdentifier {
  name : option string;
  identifierStart : number;
  identifierEnd : number;
}.

(** The only [Statement] the parser builds is a [VariableDeclaration] and
    the only [Expression] a [FunctionExpression]; [kind] is the keyword
    token's [value], whatever it holds. *)
Inductive Statement : Set :=
  | VariableDeclaration (kind : option string)
      (declarations : list VariableDeclarator) (start end_ : number)
with VariableDeclarator : Set :=
  | mkVariableDeclarator (id : Identifier) (init : FunctionExpression)
      (start end_ : number)
with FunctionExpression : Set :=
  | mkFunctionExpression (id : option Identifier) (params : list Identifier)
      (body : BlockStatement) (start end_ : number)
with BlockStatement : Set :=
  | mkBlockStatement (body : list Statement) (start end_ : number).

Record Program : Set := mkProgram {
  body : list Statement;
  programStart : number;
  programEnd : number;
}.

Definition statementEnd (s : Statement) : number :=
  match s with VariableDeclaration _ _ _ e => e end.
Definition functionEnd (f : FunctionExpression) : number :=
  match f with mkFunctionExpression _ _ _ _ e => e end.
Definition functionBody (f : FunctionExpression) : BlockStatement :=
  match f with mkFunctionExpression _ _ b _ _ => b end.
Definition blockEnd (b : BlockStatement) : number :=
  match b with mkBlockStatement _ _ e => e end.
Definition blockBody (b : BlockStatement) : list Statement :=
  match b with mkBlockStatement l _ _ => l end.

Definition statementType (s : Statement) : NodeType :=
  match s with VariableDeclaration _ _ _ _ => NVariableDeclaration end.
Definition functionType (f : FunctionExpression) : NodeType :=
  match f with mkFunctionExpression _ _ _ _ _ => NFunctionExpression end.

(** *** The store

    Token objects live in a heap and arrays hold references to them, so
    that the array given to the constructor, its copy [#tokens] and the
    objects both share are told apart. *)
Definition loc := nat.

Record State : Type := mkState {
  heap : gmap loc Token;
  input : list loc;
  tokens : list loc;
  currentIndex : nat;
}.

(** [constructor(tokens) { this.#tokens = [...tokens]; }]: a fresh array
    with the same references. *)
Definition newParser (h : gmap loc Token) (tokens : list loc) : State :=
  mkState h tokens tokens 0.

Definition setIndex (σ : State) (i : nat) : State :=
  mkState (heap σ) (input σ) (tokens σ) i.

(** [this.#tokens[i]]; out of range is [undefined]. *)
Definition tokenAt (σ : State) (i : nat) : option Token :=
  tokens σ !! i ≫= λ l, heap σ !! l.

(** *** The monad of the methods: state, exceptions and fuel *)
Definition M (A : Type) : Type := State -> option (Result A * State).

Definition ret {A} (a : A) : M A := fun σ => Some (Return a, σ).
Definition throw {A} (e : Exception) : M A := fun σ => Some (Throw e, σ).
Definition outOfFuel {A} : M A := fun _ => None.
Definition bind {A B} (m : M A) (k : A -> M B) : M B :=
  fun σ =>
    match m σ with
    | Some (Return a, σ') => k a σ'
    | Some (Throw e, σ') => Some (Throw e, σ')
    | None => None
    end.

Notation "'let*' x ':=' m 'in' k" := (bind m (fun x => k))
  (at level 10, x name, m at level 100, k at level 200).

(** Reading a property of a value that may be [undefined]. *)
Definition prop {A} (f : Token -> A) (o : option Token) : M A :=
  match o with
  | Some t => ret (f t)
  | None => throw TypeError
  end.

Inductive Expected : Set :=
  | One (type : TokenType.t)
  | Many (types : list TokenType.t).

Definition isArray (e : Expected) : bool :=
  match e with One _ => false | Many _ => true end.

Definition includes (e : Expected) (t : TokenType.t) : bool :=
  match e with
  | One _ => false
  | Many ts => existsb (TokenType.eqb t) ts
  end.

(** [currentType !== type]: a string is never identical to an array. *)
Definition strictNotEqual (t : TokenType.t) (e : Expected) : bool :=
  match e with
  | One t' => negb (TokenType.eqb t t')
  | Many _ => true
  end.

(** [type.join(',')], which is also how a template literal prints an
    array; a single type prints as itself. *)
Definition expectedToString (e : Expected) : string :=
  match e with
  | One t => TokenType.toString t
  | Many ts => String.concat "," (map TokenType.toString ts)
  end.

Definition expectMessage (e : Expected) (t : TokenType.t) : string :=
  "Expect " ++ expectedToString e ++ ", but got " ++ TokenType.toString t.

Definition unexpectedMessage (t : TokenType.t) : string :=
  "Unexpected token: " ++ TokenType.toString t.

Definition isEnd : M bool :=
  fun σ => Some (Return (List.length (tokens σ) <=? currentIndex σ)%nat, σ).

Definition currentToken : M (option Token) :=
  fun σ => Some (Return (tokenAt σ (currentIndex σ)), σ).

(** [this.#tokens[this.#currentIndex - 1]]: index [-1] is [undefined]. *)
Definition previousToken : M (option Token) :=
  fun σ =>
    Some (Return (match currentIndex σ with
                  | O => None
                  | S i => tokenAt σ i
                  end), σ).

Definition advance : M unit :=
  fun σ => Some (Return tt, setIndex σ (S (currentIndex σ))).

Definition checkCurrentTokenType (type : Expected) : M bool :=
  let* atEnd := isEnd in
  if atEnd then ret false
  else
    let* current := currentToken in
    let* currentType := prop Token.type current in
    ret (if isArray type then includes type currentType
         else negb (strictNotEqual currentType type)).

Definition goNext (type : Expected) : M Token :=
  let* current := currentToken in
  let* currentType := prop Token.type current in
  if isArray type && negb (includes type currentType) then
    throw (Error (expectMessage type currentType))
  else if strictNotEqual currentType type then
    throw (Error (expectMessage type currentType))
  else
    let* _ := advance in
    match current with
    | Some token => ret token
    | None => throw TypeError
    end.

Definition parseIdentifier : M Identifier :=
  let* token := currentToken in
  let* name := prop Token.value token in
  let* start := prop Token.start token in
  let* end_ := prop Token.end_ token in
  let* _ := goNext (One TokenType.Identifier) in
  ret (mkIdentifier name start end_).

(** The [while] loop of [#parseParam]. *)
Fixpoint parseParamLoop (fuel : nat) (params : list Identifier)
    : M (list Identifier) :=
  match fuel with
  | O => outOfFuel
  | S fuel' =>
      let* closing := checkCurrentTokenType (One TokenType.RightParen) in
      if negb closing then
        let* param := parseIdentifier in
        parseParamLoop fuel' (params ++ [param])
      else ret params
  end.

Definition parseParam (fuel : nat) : M (list Identifier) :=
  let* _ := goNext (One TokenType.LeftParen) in
  let* params := parseParamLoop fuel [] in
  let* _ := goNext (One TokenType.RightParen) in
  ret params.

Fixpoint parseStatement (fuel : nat) : M Statement :=
  match fuel with
  | O => outOfFuel
  | S fuel' =>
      let* isLet := checkCurrentTokenType (One TokenType.Let) in
      if isLet then parseVariableDeclaration fuel'
      else
        let* current := currentToken in
        let* currentType := prop Token.type current in
        throw (Error (unexpectedMessage currentType))
  end
with parseVariableDeclaration (fuel : nat) : M Statement :=
  match fuel with
  | O => outOfFuel
  | S fuel' =>
      let* current := currentToken in
      let* start := prop Token.start current in
      let* kind := prop Token.value current in
      let* _ := goNext (One TokenType.Let) in
      let* id := parseIdentifier in
      let* _ := goNext (One TokenType.Assign) in
      let* init := parseFunctionExpression fuel' in
      let declarator := mkVariableDeclarator id init start (functionEnd init) in
      let* previous := previousToken in
      let* end_ := prop Token.end_ previous in
      ret (VariableDeclaration kind [declarator] start end_)
  end
with parseFunctionExpression (fuel : nat) : M FunctionExpression :=
  match fuel with
  | O => outOfFuel
  | S fuel' =>
      let* current := currentToken in
      let* start := prop Token.start current in
      let* _ := goNext (One TokenType.Function) in
      let* named := checkCurrentTokenType (One TokenType.Identifier) in
      let* id := (if named then
                    let* i := parseIdentifier in ret (Some i)
                  else ret None) in
      let* params := parseParam fuel' in
      let* body := parseBlockStatement fuel' in
      ret (mkFunctionExpression id params body start (blockEnd body))
  end
with parseBlockStatement (fuel : nat) : M BlockStatement :=
  match fuel with
  | O => outOfFuel
  | S fuel' =>
      let* current := currentToken in
      let* start := prop Token.start current in
      let* _ := goNext (One TokenType.LeftCurly) in
      let* body := parseBlockLoop fuel' [] in
      let* closing := currentToken in
      let* end_ := prop Token.end_ closing in
      let* _ := goNext (One TokenType.RightCurly) in
      ret (mkBlockStatement body start end_)
  end
with parseBlockLoop (fuel : nat) (body : list Statement)
    : M (list Statement) :=
  match fuel with
  | O => outOfFuel
  | S fuel' =>
      let* closing := checkCurrentTokenType (One TokenType.RightCurly) in
      if negb closing then
        let* statement := parseStatement fuel' in
        parseBlockLoop fuel' (body ++ [statement])
      else ret body
  end.

(** The [while (!this.#isEnd)] loop of [#parseProgram], on the fields
    [body] and [end] of the program under construction. *)
Fixpoint parseProgramLoop (fuel : nat) (body : list Statement)
    (end_ : number) : M Program :=
  match fuel with
  | O => outOfFuel
  | S fuel' =>
      let* atEnd := isEnd in
      if negb atEnd then
        let* node := parseStatement fuel' in
        let* atEnd' := isEnd in
        parseProgramLoop fuel' (body ++ [node])
          (if atEnd' then statementEnd node else end_)
      else ret (mkProgram body (Num 0) end_)
  end.

Definition parseProgram (fuel : nat) : M Program :=
  parseProgramLoop fuel [] Infinity.

Definition parse (fuel : nat) : M Program := parseProgram fuel.

(** [new Parser(tokens).parse()] on an array whose references are all
    distinct and fresh: token [i] is stored at address [i]. *)
Definition storeOf (toks : list Token) : gmap loc Token := map_seq 0 toks.

Definition parseTokens (fuel : nat) (toks : list Token)
    : option (Result Program) :=
  fst <$> parse fuel (newParser (storeOf toks) (seq 0 (List.length toks))).

(** Enough fuel for any token array (see [parse_fuel_enough]). *)
Definition fuelFor (n : nat) : nat := 5 * n + 6.

Definition runParse (toks : list Token) : option (Result Program) :=
  parseTokens (fuelFor (List.length toks)) toks.

(** ** Specification vocabulary *)

(** The state reads exactly the tokens [toks]. *)
Definition Holds (σ : State) (toks : list Token) : Prop :=
  (forall i, tokenAt σ i = toks !! i) /\
  List.length (tokens σ) = List.length toks.

(** The token at [i] exists and has the type [type]. *)
Definition typeIs (toks : list Token) (i : nat) (type : TokenType.t) : bool :=
  match toks !! i with
  | Some t => TokenType.eqb (Token.type t) type
  | None => false
  end.

(** Only the cursor moved, and it moved forward. *)
Definition Steps (σ σ' : State) : Prop :=
  σ' = setIndex σ (currentIndex σ') /\ currentIndex σ <= currentIndex σ'.

Definition Moves {A} (m : M A) : Prop :=
  forall σ r σ', m σ = Some (r, σ') -> Steps σ σ'.

(** [m'] answers whatever [m] answers: [m] with more fuel. *)
Definition Refines {A} (m m' : M A) : Prop :=
  forall σ r, m σ = Some r -> m' σ = Some r.

(** Where a method stops when started with the cursor at [i]. *)
Definition run {A} (σ : State) (m : M A) (i : nat)
    : option (Result A * nat) :=
  match m (setIndex σ i) with
  | Some (r, σ') => Some (r, currentIndex σ')
  | None => None
  end.

(** How a parse that stopped with the cursor at [j] can have thrown: past
    the end of the tokens with a [TypeError]; on a token with the error of
    [#goNext], which names an expected type and the token's, or with the
    error of [#parseStatement], which names the token's type only. *)
Definition Failure (toks : list Token) (j : nat) (e : Exception) : Prop :=
  match toks !! j with
  | None => e = TypeError
  | Some t =>
      (exists type, type <> Token.type t /\
         e = Error (expectMessage (One type) (Token.type t))) \/
      (Token.type t <> TokenType.Let /\
         e = Error (unexpectedMessage (Token.type t)))
  end.

(** A Program, or the error that names an expected and an actual type. *)
Definition ProgramOrExpectError (r : Result Program) : Prop :=
  (exists p, r = Return p) \/
  (exists expected actual,
     r = Throw (Error (expectMessage expected actual))).

(** *** The grammar, over token types

    [Program := Statement*], [Statement := "let" Identifier "="
    FunctionExpression], [FunctionExpression := "function" Identifier? "("
    Identifier* ")" BlockStatement], [BlockStatement := "{" Statement* "}"].
    [StatementsG ts n]: [ts] is a sequence of [n] statements. *)
Inductive StatementG : list TokenType.t -> Prop :=
  | G_declaration (named : bool) (arity : nat) (inner : list TokenType.t)
      (n : nat) :
      StatementsG inner n ->
      StatementG
        ([TokenType.Let; TokenType.Identifier; TokenType.Assign;
          TokenType.Function]
         ++ (if named then [TokenType.Identifier] else [])
         ++ [TokenType.LeftParen]
         ++ repeat TokenType.Identifier arity
         ++ [TokenType.RightParen; TokenType.LeftCurly]
         ++ inner ++ [TokenType.RightCurly])
with StatementsG : list TokenType.t -> nat -> Prop :=
  | G_nil : StatementsG [] 0
  | G_cons (s rest : list TokenType.t) (n : nat) :
      StatementG s -> StatementsG rest n -> StatementsG (s ++ rest) (S n).

Scheme StatementG_min := Minimality for StatementG Sort Prop
  with StatementsG_min := Minimality for StatementsG Sort Prop.
Combined Scheme GrammarG_ind from StatementG_min, StatementsG_min.

Definition ProgramG (ts : list TokenType.t) : Prop :=
  exists n, StatementsG ts n.

(** The [let] keywords outside every pair of braces. *)
Fixpoint topLevelLets (depth : nat) (ts : list TokenType.t) : nat :=
  match ts with
  | [] => 0
  | TokenType.Let :: rest =>
      (if depth is O then 1 else 0) + topLevelLets depth rest
  | TokenType.LeftCurly :: rest => topLevelLets (S depth) rest
  | TokenType.RightCurly :: rest => topLevelLets (pred depth) rest
  | _ :: rest => topLevelLets depth rest
  end.

(** *** The scanner as the specification words it

    Which sources the grammar accepts is a matter of the specification,
    not of the code's scanner: these definitions follow the four items of
    the specification's scanner algorithm, not [Tokenizer.ts]. *)
Module Spec.
Section Scanner.
Variable isAlpha : option ascii -> bool.

(** Item 2: the reserved spellings are [let] and [function], each with
    its fixed width; every other run of letters is an Identifier whose
    value is the run. *)
Definition wordToken (w : string) (start : nat) : Token :=
  if String.eqb w "let" then
    mkToken TokenType.Let (Some w) (Num start) (Num (start + 3)) None
  else if String.eqb w "function" then
    mkToken TokenType.Function (Some w) (Num start) (Num (start + 8)) None
  else
    mkToken TokenType.Identifier (Some w) (Num start)
            (Num (start + String.length w)) None.

(** Item 3: the five single characters and their token types. *)
Definition singleType (c : ascii) : option TokenType.t :=
  if Ascii.eqb c "(" then Some TokenType.LeftParen
  else if Ascii.eqb c ")" then Some TokenType.RightParen
  else if Ascii.eqb c "{" then Some TokenType.LeftCurly
  else if Ascii.eqb c "}" then Some TokenType.RightCurly
  else if Ascii.eqb c "=" then Some TokenType.Assign
  else None.

(** The token of the run [word] that ends before the offset [i], when
    there is a run. *)
Definition flush (word : string) (i : nat) : list Token :=
  match word with
  | EmptyString => []
  | _ => [wordToken word (i - String.length word)]
  end.

(** One pass over the characters [s] that start at the offset [i], after
    the letters [word] of a run not yet ended.  A letter extends the run;
    any other character ends it, and then makes its token if it is one of
    the five (item 3), or is skipped: a space by item 1, any other
    character by item 4. *)
Fixpoint scan (s : string) (i : nat) (word : string) : list Token :=
  match s with
  | EmptyString => flush word i
  | String c rest =>
      if isAlpha (Some c) then
        scan rest (S i) (word ++ String c EmptyString)
      else
        flush word i ++
        match singleType c with
        | Some type =>
            [mkToken type (Some (String c EmptyString)) (Num i)
                     (Num (i + 1)) None]
        | None => []
        end ++
        scan rest (S i) EmptyString
  end.

Definition tokenize (source : string) : list Token :=
  scan source 0 EmptyString.

(** The grammar accepts [source], with [n] top-level declarations. *)
Definition Accepted (source : string) (n : nat) : Prop :=
  StatementsG (map Token.type (tokenize source)) n.
End Scanner.
End Spec.

(** *** Spans of the nodes of a tree

    [StatementSpans toks i s j]: the statement [s] is built from the
    tokens [i], ..., [j - 1] of [toks], and so is every node below it; the
    relation records where each node's [end] comes from. *)
Inductive StatementSpans (toks : list Token)
    : nat -> Statement -> nat -> Prop :=
  | Spans_declaration i k j kind id init start last :
      FunctionSpans toks k init j ->
      i < k ->
      toks !! (j - 1) = Some last ->
      StatementSpans toks i
        (VariableDeclaration kind
           [mkVariableDeclarator id init start (functionEnd init)]
           start (Token.end_ last)) j
with FunctionSpans (toks : list Token)
    : nat -> FunctionExpression -> nat -> Prop :=
  | Spans_function i k j id params body start :
      BlockSpans toks k body j ->
      i < k ->
      FunctionSpans toks i
        (mkFunctionExpression id params body start (blockEnd body)) j
with BlockSpans (toks : list Token)
    : nat -> BlockStatement -> nat -> Prop :=
  | Spans_block i j body opening closing :
      toks !! i = Some opening ->
      Token.type opening = TokenType.LeftCurly ->
      StatementsSpans toks (S i) body j ->
      toks !! j = Some closing ->
      Token.type closing = TokenType.RightCurly ->
      BlockSpans toks i
        (mkBlockStatement body (Token.start opening) (Token.end_ closing))
        (S j)
with StatementsSpans (toks : list Token)
    : nat -> list Statement -> nat -> Prop :=
  | Spans_nil i : StatementsSpans toks i [] i
  | Spans_cons i k j s rest :
      StatementSpans toks i s k ->
      StatementsSpans toks k rest j ->
      StatementsSpans toks i (s :: rest) j.

(** ** Vocabulary of the further properties *)

(** What the letters branch pushes, or throws, for the run [w] scanned
    from [start]. *)
Definition wordValue (w : string) (start : nat) : Result Pushed :=
  if TOKENS_GENERATOR.has w then TOKENS_GENERATOR.call w start
  else Return (Tok (TOKENS_GENERATOR.identifier start w)).

(** A character of one of the three classes of the scanner. *)
Definition recognisedChar (isAlpha : option ascii -> bool) (c : ascii)
    : bool :=
  isSpace (Some c) || isAlpha (Some c) || isSingleCharToken (Some c).

Fixpoint recognised (isAlpha : option ascii -> bool) (source : string)
    : bool :=
  match source with
  | EmptyString => true
  | String c rest => recognisedChar isAlpha c && recognised isAlpha rest
  end.

(** The tokens of [pushed] have spans with offsets [lo <= s1 < e1 <= s2 <
    e2 <= ... <= hi], in the order of the list; a pushed value that is no
    token has no span. *)
Fixpoint spansFrom (lo : nat) (pushed : list Pushed) (hi : nat) : Prop :=
  match pushed with
  | [] => lo <= hi
  | Tok t :: rest =>
      exists s e, Token.start t = Num s /\ Token.end_ t = Num e /\
                  lo <= s /\ s < e /\ spansFrom e rest hi
  | _ :: rest => spansFrom lo rest hi
  end.

(** The token types that stand for a run of letters of the source. *)
Definition isWord (type : TokenType.t) : bool :=
  match type with
  | TokenType.Identifier | TokenType.Let | TokenType.Function => true
  | _ => false
  end.

(** A word token's value is the text of the source over its span. *)
Definition carriesSource (source : string) (p : Pushed) : Prop :=
  match p with
  | Tok t =>
      isWord (Token.type t) = true ->
      exists s e, Token.start t = Num s /\ Token.end_ t = Num e /\
                  Token.value t = Some (substring s (e - s) source)
  | _ => True
  end.

(** An Identifier token is named by a non-empty text that is no key of
    the generator table. *)
Definition namedFreely (p : Pushed) : Prop :=
  match p with
  | Tok t =>
      Token.type t = TokenType.Identifier ->
      exists w, Token.value t = Some w /\ w <> EmptyString /\
                TOKENS_GENERATOR.has w = false
  | _ => True
  end.

(** The Identifier node of an Identifier token. *)
Definition identifierOf (t : Token) : Identifier :=
  mkIdentifier (Token.value t) (Token.start t) (Token.end_ t).

(** The tokens [i], ..., [j - 1] of [toks] have the types [ts]. *)
Definition Segment (toks : list Token) (i : nat) (ts : list TokenType.t)
    (j : nat) : Prop :=
  drop i (map Token.type toks) = ts ++ drop j (map Token.type toks).

(** *** The tree of a token sequence

    [StatementParsed toks i s j]: [s] is the tree of the tokens [i], ...,
    [j - 1] of [toks]: every field of every node is given by the tokens. *)
Inductive ParamsParsed (toks : list Token)
    : nat -> list Identifier -> nat -> Prop :=
  | Parsed_no_param i : ParamsParsed toks i [] i
  | Parsed_param i j t params :
      toks !! i = Some t ->
      Token.type t = TokenType.Identifier ->
      ParamsParsed toks (S i) params j ->
      ParamsParsed toks i (identifierOf t :: params) j.

(** The optional name of a function expression: the token at [i] when it
    is an Identifier. *)
Inductive NameParsed (toks : list Token)
    : nat -> option Identifier -> nat -> Prop :=
  | Parsed_named i t :
      toks !! i = Some t ->
      Token.type t = TokenType.Identifier ->
      NameParsed toks i (Some (identifierOf t)) (S i)
  | Parsed_anonymous i :
      typeIs toks i TokenType.Identifier = false ->
      NameParsed toks i None i.

Inductive StatementParsed (toks : list Token)
    : nat -> Statement -> nat -> Prop :=
  | Parsed_declaration i j tLet tId tAssign init :
      toks !! i = Some tLet ->
      Token.type tLet = TokenType.Let ->
      toks !! S i = Some tId ->
      Token.type tId = TokenType.Identifier ->
      toks !! S (S i) = Some tAssign ->
      Token.type tAssign = TokenType.Assign ->
      FunctionParsed toks (S (S (S i))) init j ->
      StatementParsed toks i
        (VariableDeclaration (Token.value tLet)
           [mkVariableDeclarator (identifierOf tId) init
              (Token.start tLet) (functionEnd init)]
           (Token.start tLet) (functionEnd init)) j
with FunctionParsed (toks : list Token)
    : nat -> FunctionExpression -> nat -> Prop :=
  | Parsed_function i k l j tFunction name tOpen params tClose body :
      toks !! i = Some tFunction ->
      Token.type tFunction = TokenType.Function ->
      NameParsed toks (S i) name k ->
      toks !! k = Some tOpen ->
      Token.type tOpen = TokenType.LeftParen ->
      ParamsParsed toks (S k) params l ->
      toks !! l = Some tClose ->
      Token.type tClose = TokenType.RightParen ->
      BlockParsed toks (S l) body j ->
      FunctionParsed toks i
        (mkFunctionExpression name params body (Token.start tFunction)
           (blockEnd body)) j
with BlockParsed (toks : list Token)
    : nat -> BlockStatement -> nat -> Prop :=
  | Parsed_block i j tOpen body tClose :
      toks !! i = Some tOpen ->
      Token.type tOpen = TokenType.LeftCurly ->
      StatementsParsed toks (S i) body j ->
      toks !! j = Some tClose ->
      Token.type tClose = TokenType.RightCurly ->
      BlockParsed toks i
        (mkBlockStatement body (Token.start tOpen) (Token.end_ tClose))
        (S j)
with StatementsParsed (toks : list Token)
    : nat -> list Statement -> nat -> Prop :=
  | Parsed_nil i : StatementsParsed toks i [] i
  | Parsed_cons i k j s rest :
      StatementParsed toks i s k ->
      StatementsParsed toks k rest j ->
      StatementsParsed toks i (s :: rest) j.

Scheme StatementParsed_min := Minimality for StatementParsed Sort Prop
  with FunctionParsed_min := Minimality for FunctionParsed Sort Prop
  with BlockParsed_min := Minimality for BlockParsed Sort Prop
  with StatementsParsed_min := Minimality for StatementsParsed Sort Prop.
Combined Scheme Parsed_ind from StatementParsed_min, FunctionParsed_min,
  BlockParsed_min, StatementsParsed_min.

(** The end of a Program over [toks]: that of the last token. *)
Definition endOf (toks : list Token) : number :=
  match last toks with
  | Some t => Token.end_ t
  | None => Infinity
  end.

(** A Program's tree: its statements cover all the tokens. *)
Definition ProgramParsed (toks : list Token) (p : Program) : Prop :=
  StatementsParsed toks 0 (body p) (List.length toks) /\
  programStart p = Num 0 /\ programEnd p = endOf toks.

(** The type [t] is what [type] asks for: the type itself, or a member of
    the array. *)
Definition expects (type : Expected) (t : TokenType.t) : Prop :=
  match type with
  | One type' => t = type'
  | Many types => In t types
  end.

(** * Proofs *)

(** ** The monad *)

Lemma bind_inv {A B} (m : M A) (k : A -> M B) σ r σ' :
  bind m k σ = Some (r, σ') ->
  (exists a σ1, m σ = Some (Return a, σ1) /\ k a σ1 = Some (r, σ')) \/
  (exists e, m σ = Some (Throw e, σ') /\ r = Throw e).
Proof.
  unfold bind. destruct (m σ) as [[[a|e] σ1]|] eqn:E; intros H.
  - left. eauto.
  - right. inversion H; subst. eauto.
  - discriminate.
Qed.

Lemma bind_Return {A B} (m : M A) (k : A -> M B) σ a σ1 :
  m σ = Some (Return a, σ1) -> bind m k σ = k a σ1.
Proof. unfold bind. now intros ->. Qed.

Lemma Steps_refl σ : Steps σ σ.
Proof. split; [now destruct σ | lia]. Qed.

Lemma Steps_trans σ1 σ2 σ3 : Steps σ1 σ2 -> Steps σ2 σ3 -> Steps σ1 σ3.
Proof.
  intros [E1 L1] [E2 L2]. split; [|lia].
  rewrite E2 at 1. rewrite E1. reflexivity.
Qed.

Lemma Steps_tokenAt σ σ' i : Steps σ σ' -> tokenAt σ' i = tokenAt σ i.
Proof. intros [-> _]. reflexivity. Qed.

Lemma Steps_Holds σ σ' toks : Steps σ σ' -> Holds σ toks -> Holds σ' toks.
Proof.
  intros HS [H1 H2]. split.
  - intros i. rewrite (Steps_tokenAt _ _ _ HS). apply H1.
  - destruct HS as [-> _]. exact H2.
Qed.

Lemma Moves_ret {A} (a : A) : Moves (ret a).
Proof. intros σ r σ' H. inversion H. apply Steps_refl. Qed.

Lemma Moves_throw {A} e : Moves (@throw A e).
Proof. intros σ r σ' H. inversion H. apply Steps_refl. Qed.

Lemma Moves_outOfFuel {A} : Moves (@outOfFuel A).
Proof. intros σ r σ' H. discriminate. Qed.

Lemma Moves_bind {A B} (m : M A) (k : A -> M B) :
  Moves m -> (forall a, Moves (k a)) -> Moves (bind m k).
Proof.
  intros Hm Hk σ r σ' H.
  destruct (bind_inv _ _ _ _ _ H) as [(a & σ1 & H1 & H2)|(e & H1 & _)].
  - eapply Steps_trans; [eapply Hm|eapply Hk]; eauto.
  - eapply Hm; eauto.
Qed.

Lemma Moves_prop {A} (f : Token -> A) o : Moves (prop f o).
Proof. destruct o; [apply Moves_ret|apply Moves_throw]. Qed.

Lemma Moves_isEnd : Moves isEnd.
Proof. intros σ r σ' H. inversion H. apply Steps_refl. Qed.

Lemma Moves_currentToken : Moves currentToken.
Proof. intros σ r σ' H. inversion H. apply Steps_refl. Qed.

Lemma Moves_previousToken : Moves previousToken.
Proof. intros σ r σ' H. inversion H. apply Steps_refl. Qed.

Lemma Moves_advance : Moves advance.
Proof. intros σ r σ' H. inversion H. split; simpl; [reflexivity|lia]. Qed.

Create HintDb moves.

#[local] Hint Resolve Moves_ret Moves_throw Moves_outOfFuel Moves_prop
  Moves_isEnd Moves_currentToken Moves_previousToken Moves_advance : moves.

(** Decompose a method body into its statements. *)
Ltac moves :=
  repeat first
    [ assumption
    | solve [auto with moves]
    | apply Moves_bind; [|intros ?]
    | match goal with
      | |- Moves (if ?b then _ else _) => destruct b
      | |- Moves (match ?o with Some _ => _ | None => _ end) => destruct o
      end ].

Lemma Moves_checkCurrentTokenType type : Moves (checkCurrentTokenType type).
Proof. unfold checkCurrentTokenType. moves. Qed.

Lemma Moves_goNext type : Moves (goNext type).
Proof. unfold goNext. moves. Qed.

#[local] Hint Resolve Moves_checkCurrentTokenType Moves_goNext : moves.

Lemma Moves_parseIdentifier : Moves parseIdentifier.
Proof. unfold parseIdentifier. moves. Qed.

#[local] Hint Resolve Moves_parseIdentifier : moves.

Lemma Moves_parseParamLoop fuel : forall params,
  Moves (parseParamLoop fuel params).
Proof. induction fuel as [|fuel IH]; intros params; simpl; moves. Qed.

#[local] Hint Resolve Moves_parseParamLoop : moves.

Lemma Moves_parseParam fuel : Moves (parseParam fuel).
Proof. unfold parseParam. moves. Qed.

#[local] Hint Resolve Moves_parseParam : moves.

Lemma Moves_methods fuel :
  Moves (parseStatement fuel) /\
  Moves (parseVariableDeclaration fuel) /\
  Moves (parseFunctionExpression fuel) /\
  Moves (parseBlockStatement fuel) /\
  (forall body, Moves (parseBlockLoop fuel body)).
Proof.
  induction fuel as [|fuel (IHs & IHd & IHf & IHb & IHl)].
  - repeat apply conj; try intros ?; apply Moves_outOfFuel.
  - repeat apply conj; try intros ?; simpl; moves.
Qed.

Lemma Moves_parseStatement fuel : Moves (parseStatement fuel).
Proof. apply Moves_methods. Qed.

Lemma Moves_parseBlockStatement fuel : Moves (parseBlockStatement fuel).
Proof. apply Moves_methods. Qed.

Lemma Moves_parseFunctionExpression fuel :
  Moves (parseFunctionExpression fuel).
Proof. apply Moves_methods. Qed.

Lemma Moves_parseVariableDeclaration fuel :
  Moves (parseVariableDeclaration fuel).
Proof. apply Moves_methods. Qed.

Lemma Moves_parseBlockLoop fuel body : Moves (parseBlockLoop fuel body).
Proof. apply Moves_methods. Qed.

#[local] Hint Resolve Moves_parseStatement Moves_parseBlockStatement
  Moves_parseFunctionExpression Moves_parseVariableDeclaration
  Moves_parseBlockLoop : moves.

Lemma Moves_parseProgramLoop fuel : forall body end_,
  Moves (parseProgramLoop fuel body end_).
Proof. induction fuel as [|fuel IH]; intros body end_; simpl; moves. Qed.

Lemma Moves_parse fuel : Moves (parse fuel).
Proof. apply Moves_parseProgramLoop. Qed.

(** ** The primitives, on a state that reads the tokens [toks] *)

Lemma TokenType_eqb_eq a b : TokenType.eqb a b = true <-> a = b.
Proof. destruct a, b; simpl; split; intros H; congruence. Qed.

Lemma TokenType_eqb_refl a : TokenType.eqb a a = true.
Proof. now apply TokenType_eqb_eq. Qed.

Section Reading.
Variables (σ : State) (toks : list Token).
Hypothesis HOLD : Holds σ toks.

Lemma isEnd_at i :
  isEnd (setIndex σ i) =
  Some (Return (List.length toks <=? i)%nat, setIndex σ i).
Proof. unfold isEnd. simpl. destruct HOLD as [_ ->]. reflexivity. Qed.

Lemma currentToken_at i :
  currentToken (setIndex σ i) = Some (Return (toks !! i), setIndex σ i).
Proof.
  unfold currentToken. simpl. destruct HOLD as [H _].
  rewrite <- H. reflexivity.
Qed.

Lemma previousToken_at i :
  previousToken (setIndex σ (S i)) =
  Some (Return (toks !! i), setIndex σ (S i)).
Proof.
  unfold previousToken. simpl. destruct HOLD as [H _].
  rewrite <- H. reflexivity.
Qed.

Lemma checkCurrentTokenType_at type i :
  checkCurrentTokenType (One type) (setIndex σ i) =
  Some (Return (typeIs toks i type), setIndex σ i).
Proof.
  unfold checkCurrentTokenType, typeIs.
  rewrite (bind_Return _ _ _ _ _ (isEnd_at i)).
  destruct (List.length toks <=? i)%nat eqn:E.
  - apply Nat.leb_le in E. rewrite (lookup_ge_None_2 toks i) by lia.
    reflexivity.
  - apply Nat.leb_gt in E.
    destruct (lookup_lt_is_Some_2 toks i E) as [t Ht].
    rewrite (bind_Return _ _ _ _ _ (currentToken_at i)), Ht. simpl.
    unfold bind, prop, ret. simpl. now rewrite negb_involutive.
Qed.

Lemma goNext_at type i :
  goNext (One type) (setIndex σ i) =
  Some (match toks !! i with
        | None => (Throw TypeError, setIndex σ i)
        | Some t =>
            if TokenType.eqb (Token.type t) type
            then (Return t, setIndex σ (S i))
            else (Throw (Error (expectMessage (One type) (Token.type t))),
                  setIndex σ i)
        end).
Proof.
  unfold goNext. rewrite (bind_Return _ _ _ _ _ (currentToken_at i)).
  destruct (toks !! i) as [t|]; [|reflexivity].
  unfold bind, prop, ret. simpl.
  destruct (TokenType.eqb (Token.type t) type); reflexivity.
Qed.

Lemma parseIdentifier_at i :
  parseIdentifier (setIndex σ i) =
  Some (match toks !! i with
        | None => (Throw TypeError, setIndex σ i)
        | Some t =>
            if TokenType.eqb (Token.type t) TokenType.Identifier
            then (Return (mkIdentifier (Token.value t) (Token.start t)
                            (Token.end_ t)), setIndex σ (S i))
            else (Throw (Error (expectMessage (One TokenType.Identifier)
                                  (Token.type t))), setIndex σ i)
        end).
Proof.
  unfold parseIdentifier.
  rewrite (bind_Return _ _ _ _ _ (currentToken_at i)).
  destruct (toks !! i) as [t|] eqn:E; [|reflexivity].
  unfold prop. simpl.
  rewrite (bind_Return _ _ _ (Token.value t) (setIndex σ i) eq_refl).
  rewrite (bind_Return _ _ _ (Token.start t) (setIndex σ i) eq_refl).
  rewrite (bind_Return _ _ _ (Token.end_ t) (setIndex σ i) eq_refl).
  unfold bind. rewrite goNext_at, E.
  destruct (TokenType.eqb (Token.type t) TokenType.Identifier); reflexivity.
Qed.
End Reading.

(** ** Running a method from a cursor position

    Every method only moves the cursor, so on a state that reads [toks] a
    run is determined by the position it starts from and is described by
    the position it stops at. *)
Section Running.
Variables (σ : State) (toks : list Token).
Hypothesis HOLD : Holds σ toks.

Lemma run_le {A} (m : M A) i r j :
  Moves m -> run σ m i = Some (r, j) -> i <= j.
Proof.
  unfold run. intros Hm H.
  destruct (m (setIndex σ i)) as [[r' σ']|] eqn:E; [|discriminate].
  inversion H; subst. now destruct (Hm _ _ _ E).
Qed.

Lemma run_bind {A B} (m : M A) (k : A -> M B) i :
  Moves m ->
  run σ (bind m k) i =
  match run σ m i with
  | Some (Return a, j) => run σ (k a) j
  | Some (Throw e, j) => Some (Throw e, j)
  | None => None
  end.
Proof.
  intros Hm. unfold run at 1 2, bind.
  destruct (m (setIndex σ i)) as [[[a|e] σ1]|] eqn:E; try reflexivity.
  destruct (Hm _ _ _ E) as [E1 _].
  change (σ1 = setIndex σ (currentIndex σ1)) in E1.
  unfold run. now rewrite <- E1.
Qed.

Lemma run_ret {A} (a : A) i : run σ (ret a) i = Some (Return a, i).
Proof. reflexivity. Qed.

Lemma run_throw {A} e i : run σ (@throw A e) i = Some (Throw e, i).
Proof. reflexivity. Qed.

Lemma run_outOfFuel {A} i : run σ (@outOfFuel A) i = None.
Proof. reflexivity. Qed.

Lemma run_prop {A} (f : Token -> A) o i :
  run σ (prop f o) i =
  Some (match o with Some t => Return (f t) | None => Throw TypeError end,
        i).
Proof. now destruct o. Qed.

Lemma run_isEnd i :
  run σ isEnd i = Some (Return (List.length toks <=? i)%nat, i).
Proof. unfold run. now rewrite (isEnd_at _ _ HOLD). Qed.

Lemma run_currentToken i :
  run σ currentToken i = Some (Return (toks !! i), i).
Proof. unfold run. now rewrite (currentToken_at _ _ HOLD). Qed.

Lemma run_previousToken i :
  run σ previousToken i =
  Some (Return (match i with O => None | S k => toks !! k end), i).
Proof.
  destruct i as [|k]; [reflexivity|].
  unfold run. now rewrite (previousToken_at _ _ HOLD).
Qed.

Lemma run_checkCurrentTokenType type i :
  run σ (checkCurrentTokenType (One type)) i =
  Some (Return (typeIs toks i type), i).
Proof. unfold run. now rewrite (checkCurrentTokenType_at _ _ HOLD). Qed.

Lemma run_goNext type i :
  run σ (goNext (One type)) i =
  Some (match toks !! i with
        | None => (Throw TypeError, i)
        | Some t =>
            if TokenType.eqb (Token.type t) type then (Return t, S i)
            else (Throw (Error (expectMessage (One type) (Token.type t))),
                  i)
        end).
Proof.
  unfold run. rewrite (goNext_at _ _ HOLD).
  destruct (toks !! i) as [t|]; [|reflexivity].
  now destruct (TokenType.eqb (Token.type t) type).
Qed.

Lemma run_parseIdentifier i :
  run σ parseIdentifier i =
  Some (match toks !! i with
        | None => (Throw TypeError, i)
        | Some t =>
            if TokenType.eqb (Token.type t) TokenType.Identifier
            then (Return (mkIdentifier (Token.value t) (Token.start t)
                            (Token.end_ t)), S i)
            else (Throw (Error (expectMessage (One TokenType.Identifier)
                                  (Token.type t))), i)
        end).
Proof.
  unfold run. rewrite (parseIdentifier_at _ _ HOLD).
  destruct (toks !! i) as [t|]; [|reflexivity].
  now destruct (TokenType.eqb (Token.type t) TokenType.Identifier).
Qed.

Lemma run_if {A} (b : bool) (m1 m2 : M A) i :
  run σ (if b then m1 else m2) i = if b then run σ m1 i else run σ m2 i.
Proof. now destruct b. Qed.
End Running.

(** ** Fuel: more of it changes no result *)

Lemma Refines_refl {A} (m : M A) : Refines m m.
Proof. now intros σ r H. Qed.

Lemma Refines_outOfFuel {A} (m : M A) : Refines outOfFuel m.
Proof. intros σ r H. discriminate. Qed.

Lemma Refines_bind {A B} (m m' : M A) (k k' : A -> M B) :
  Refines m m' -> (forall a, Refines (k a) (k' a)) ->
  Refines (bind m k) (bind m' k').
Proof.
  intros Hm Hk σ r H. unfold bind in *.
  destruct (m σ) as [[[a|e] σ1]|] eqn:E; [| |discriminate];
    rewrite (Hm _ _ E); [now apply Hk|exact H].
Qed.

Ltac refines IH :=
  repeat first
    [ apply Refines_refl
    | apply Refines_outOfFuel
    | apply IH; lia
    | apply Refines_bind; [|intros ?]
    | match goal with
      | |- Refines (if ?b then _ else _) (if ?b then _ else _) => destruct b
      end ].

Lemma parseParamLoop_fuel fuel : forall fuel' params,
  fuel <= fuel' ->
  Refines (parseParamLoop fuel params) (parseParamLoop fuel' params).
Proof.
  induction fuel as [|fuel IH]; intros fuel' params LE;
    [apply Refines_outOfFuel|].
  destruct fuel' as [|fuel']; [lia|]. simpl. refines IH.
Qed.

Lemma parseParam_fuel fuel fuel' :
  fuel <= fuel' -> Refines (parseParam fuel) (parseParam fuel').
Proof. intros LE. unfold parseParam. refines parseParamLoop_fuel. Qed.

Lemma methods_fuel fuel :
  (forall fuel', fuel <= fuel' ->
     Refines (parseStatement fuel) (parseStatement fuel')) /\
  (forall fuel', fuel <= fuel' ->
     Refines (parseVariableDeclaration fuel)
             (parseVariableDeclaration fuel')) /\
  (forall fuel', fuel <= fuel' ->
     Refines (parseFunctionExpression fuel)
             (parseFunctionExpression fuel')) /\
  (forall fuel', fuel <= fuel' ->
     Refines (parseBlockStatement fuel) (parseBlockStatement fuel')) /\
  (forall fuel' body, fuel <= fuel' ->
     Refines (parseBlockLoop fuel body) (parseBlockLoop fuel' body)).
Proof.
  induction fuel as [|fuel (IHs & IHd & IHf & IHb & IHl)].
  { repeat apply conj; intros; apply Refines_outOfFuel. }
  repeat apply conj; intros fuel'; intros; (destruct fuel' as [|fuel']; [lia|]);
    simpl.
  - refines IHd.
  - refines IHf.
  - refines parseParam_fuel; refines IHb.
  - refines IHl.
  - refines IHs; refines IHl.
Qed.

Lemma parseProgramLoop_fuel fuel : forall fuel' body end_,
  fuel <= fuel' ->
  Refines (parseProgramLoop fuel body end_)
          (parseProgramLoop fuel' body end_).
Proof.
  induction fuel as [|fuel IH]; intros fuel' body end_ LE;
    [apply Refines_outOfFuel|].
  destruct fuel' as [|fuel']; [lia|]. simpl.
  refines (proj1 (methods_fuel fuel)); refines IH.
Qed.

Lemma parse_fuel fuel fuel' σ r :
  fuel <= fuel' -> parse fuel σ = Some r -> parse fuel' σ = Some r.
Proof. intros LE. now apply parseProgramLoop_fuel. Qed.

(** ** The methods, run from a cursor position

    All that follows is about a state [σ] that reads the tokens [toks]. *)
Section Methods.
Variables (σ : State) (toks : list Token).
Hypothesis HOLD : Holds σ toks.

(** *** Every returned tree has the spans of its tokens *)

(** Rewrite the run in [H] up to the next choice. *)
Ltac run_in H :=
  repeat (first
    [ rewrite (run_bind σ) in H by moves
    | rewrite run_ret in H
    | rewrite run_throw in H
    | rewrite run_outOfFuel in H
    | rewrite run_prop in H
    | rewrite run_if in H
    | rewrite (run_isEnd σ toks HOLD) in H
    | rewrite (run_currentToken σ toks HOLD) in H
    | rewrite (run_previousToken σ toks HOLD) in H
    | rewrite (run_checkCurrentTokenType σ toks HOLD) in H
    | rewrite (run_goNext σ toks HOLD) in H
    | rewrite (run_parseIdentifier σ toks HOLD) in H ];
    cbv beta iota in H).

(** Follow the only branches of the run in [H] that return. *)
Ltac returns H :=
  repeat (run_in H;
    match type of H with
    | context [typeIs toks ?i ?ty] =>
        let E := fresh "T" in
        destruct (typeIs toks i ty) eqn:E; simpl negb in H
    | context [match toks !! ?i with _ => _ end] =>
        let E := fresh "L" in
        destruct (toks !! i) eqn:E; try discriminate H
    | context [if TokenType.eqb ?a ?b then _ else _] =>
        let E := fresh "Q" in
        destruct (TokenType.eqb a b) eqn:E; try discriminate H
    | context [match run σ ?m ?i with _ => _ end] =>
        let E := fresh "R" in
        destruct (run σ m i) as [[[?|?] ?]|] eqn:E; try discriminate H
    end);
  run_in H.

Lemma parseBlockLoop_S fuel acc i :
  run σ (parseBlockLoop (S fuel) acc) i =
  if typeIs toks i TokenType.RightCurly then Some (Return acc, i)
  else match run σ (parseStatement fuel) i with
       | Some (Return s, j) => run σ (parseBlockLoop fuel (acc ++ [s])) j
       | Some (Throw e, j) => Some (Throw e, j)
       | None => None
       end.
Proof.
  simpl. rewrite (run_bind σ) by auto with moves.
  rewrite (run_checkCurrentTokenType σ toks HOLD). cbv beta iota.
  destruct (typeIs toks i TokenType.RightCurly); simpl; [reflexivity|].
  now rewrite (run_bind σ) by auto with moves.
Qed.

Lemma methods_spans fuel :
  (forall i s j, run σ (parseStatement fuel) i = Some (Return s, j) ->
     StatementSpans toks i s j /\ i < j <= List.length toks) /\
  (forall i s j,
     run σ (parseVariableDeclaration fuel) i = Some (Return s, j) ->
     StatementSpans toks i s j /\ i < j <= List.length toks) /\
  (forall i f j,
     run σ (parseFunctionExpression fuel) i = Some (Return f, j) ->
     FunctionSpans toks i f j /\ i < j) /\
  (forall i b j, run σ (parseBlockStatement fuel) i = Some (Return b, j) ->
     BlockSpans toks i b j /\ i < j) /\
  (forall acc i body j,
     run σ (parseBlockLoop fuel acc) i = Some (Return body, j) ->
     exists new, body = acc ++ new /\ StatementsSpans toks i new j /\
                 i <= j).
Proof.
  induction fuel as [|fuel (IHs & IHd & IHf & IHb & IHl)].
  { repeat apply conj; intros; discriminate. }
  repeat apply conj.
  - intros i s j H. simpl in H. returns H.
    now apply IHd.
  - intros i s j H. simpl in H. returns H.
    destruct (IHf _ _ _ R) as [SF LT].
    destruct n as [|k]; [lia|].
    returns H. inversion H; subst. inversion L; subst.
    match goal with
    | L : toks !! k = Some _ |- _ => pose proof (lookup_lt_Some _ _ _ L)
    end.
    repeat apply conj; [|lia|lia].
    eapply Spans_declaration; [exact SF|lia|].
    simpl. now rewrite Nat.sub_0_r.
  - intros i f j H. simpl in H.
    returns H; inversion H; subst; clear H;
      pose proof (run_le σ _ _ _ _ (Moves_parseParam _) R) as LE;
      destruct (IHb _ _ _ R0) as [SB LT];
      (split; [|lia]);
      (apply Spans_function with (k := n); [exact SB|lia]).
  - intros i b j H. simpl in H. returns H.
    inversion H; subst; clear H. inversion L; inversion L1; subst.
    destruct (IHl _ _ _ _ R) as (new & -> & SS & LE). simpl.
    split; [|lia].
    apply Spans_block; auto; now apply TokenType_eqb_eq.
  - intros acc i body j H. rewrite parseBlockLoop_S in H.
    destruct (typeIs toks i TokenType.RightCurly).
    + inversion H; subst. exists []. rewrite app_nil_r.
      repeat apply conj; [reflexivity|constructor|lia].
    + destruct (run σ (parseStatement fuel) i) as [[[s|e] k]|] eqn:R;
        try discriminate H.
      destruct (IHs _ _ _ R) as (SS & LT & _).
      destruct (IHl _ _ _ _ H) as (new & -> & SR & LE).
      exists (s :: new). rewrite <- app_assoc.
      repeat apply conj; [reflexivity| |lia].
      now apply Spans_cons with (k := k).
Qed.

Lemma parseStatement_spans fuel i s j :
  run σ (parseStatement fuel) i = Some (Return s, j) ->
  StatementSpans toks i s j /\ i < j <= List.length toks.
Proof. apply methods_spans. Qed.

Lemma parseProgramLoop_spans fuel : forall acc end_ i p j,
  run σ (parseProgramLoop fuel acc end_) i = Some (Return p, j) ->
  i <= List.length toks ->
  exists new, body p = acc ++ new /\ StatementsSpans toks i new j /\
              j = List.length toks.
Proof.
  induction fuel as [|fuel IH]; intros acc end_ i p j H LI;
    [discriminate|].
  simpl in H. run_in H.
  destruct (List.length toks <=? i)%nat eqn:E; simpl negb in H; run_in H.
  - inversion H; subst. apply Nat.leb_le in E. exists [].
    rewrite app_nil_r. repeat apply conj; [reflexivity|constructor|lia].
  - destruct (run σ (parseStatement fuel) i) as [[[s|e] k]|] eqn:R;
      try discriminate H.
    run_in H. destruct (parseStatement_spans _ _ _ _ R) as (SS & LT).
    destruct (IH _ _ _ _ _ H) as (new & -> & SR & ->); [lia|].
    exists (s :: new). rewrite <- app_assoc.
    repeat apply conj; [reflexivity| |reflexivity].
    now apply Spans_cons with (k := k).
Qed.

(** *** Enough fuel always gives a result *)

Ltac run_goal :=
  repeat (first
    [ rewrite (run_bind σ) by moves
    | rewrite run_ret
    | rewrite run_throw
    | rewrite run_prop
    | rewrite run_if
    | rewrite (run_isEnd σ toks HOLD)
    | rewrite (run_currentToken σ toks HOLD)
    | rewrite (run_previousToken σ toks HOLD)
    | rewrite (run_checkCurrentTokenType σ toks HOLD)
    | rewrite (run_goNext σ toks HOLD)
    | rewrite (run_parseIdentifier σ toks HOLD) ];
    cbv beta iota).

(** Follow every branch of the run in the goal up to a call that takes
    fuel; the branches that throw are results. *)
Ltac branches :=
  repeat (run_goal;
    match goal with
    | |- Some _ <> None => discriminate
    | |- context [typeIs toks ?i ?ty] =>
        destruct (typeIs toks i ty) eqn:?; simpl negb
    | |- context [match toks !! ?i with _ => _ end] =>
        destruct (toks !! i) eqn:?
    | |- context [if TokenType.eqb ?a ?b then _ else _] =>
        destruct (TokenType.eqb a b) eqn:?
    | |- context [match ?n with O => _ | S _ => _ end] =>
        is_var n; destruct n
    end);
  run_goal.

(** A call that was given enough fuel returns or throws. *)
Ltac call IH :=
  match goal with
  | |- context [match run σ ?m ?i with _ => _ end] =>
      let R := fresh "R" in
      destruct (run σ m i) as [[[?|?] ?]|] eqn:R;
      [ let Hm := fresh "Hm" in
        assert (Hm : Moves m) by moves;
        pose proof (run_le σ m i _ _ Hm R); clear Hm
      | | exfalso; revert R; apply IH; lia ]
  end.

Lemma parseParamLoop_runs fuel : forall params i,
  List.length toks - i < fuel ->
  run σ (parseParamLoop fuel params) i <> None.
Proof.
  induction fuel as [|fuel IH]; intros params i LT; [lia|].
  simpl. branches.
  match goal with
  | L : toks !! i = Some _ |- _ => apply lookup_lt_Some in L
  end.
  apply IH. lia.
Qed.

Lemma parseParam_runs fuel i :
  List.length toks - i < fuel -> run σ (parseParam fuel) i <> None.
Proof.
  intros LT. unfold parseParam. branches.
  call parseParamLoop_runs. all: branches.
Qed.

Lemma methods_run fuel :
  (forall i, 5 * (List.length toks - i) + 5 <= fuel ->
     run σ (parseStatement fuel) i <> None) /\
  (forall i, 5 * (List.length toks - i) + 4 <= fuel ->
     run σ (parseVariableDeclaration fuel) i <> None) /\
  (forall i, 5 * (List.length toks - i) + 3 <= fuel ->
     run σ (parseFunctionExpression fuel) i <> None) /\
  (forall i, 5 * (List.length toks - i) + 2 <= fuel ->
     run σ (parseBlockStatement fuel) i <> None) /\
  (forall acc i, 5 * (List.length toks - i) + 6 <= fuel ->
     run σ (parseBlockLoop fuel acc) i <> None).
Proof.
  induction fuel as [|fuel (IHs & IHd & IHf & IHb & IHl)].
  { repeat apply conj; intros; lia. }
  repeat apply conj.
  - intros i LE. simpl. branches. apply IHd. lia.
  - intros i LE. simpl. branches. call IHf. all: branches.
  - intros i LE. simpl. branches.
    all: call parseParam_runs; branches.
    all: call IHb; branches.
  - intros i LE. simpl. branches.
    match goal with
    | L : toks !! i = Some _ |- _ => apply lookup_lt_Some in L
    end.
    call IHl. all: branches.
  - intros acc i LE. rewrite parseBlockLoop_S.
    destruct (typeIs toks i TokenType.RightCurly); [discriminate|].
    call IHs; [|discriminate].
    destruct (parseStatement_spans _ _ _ _ R) as (_ & LT).
    apply IHl. lia.
Qed.

Lemma parseProgramLoop_runs fuel : forall acc end_ i,
  5 * (List.length toks - i) + 6 <= fuel ->
  run σ (parseProgramLoop fuel acc end_) i <> None.
Proof.
  induction fuel as [|fuel IH]; intros acc end_ i LE; [lia|].
  simpl. run_goal.
  destruct (List.length toks <=? i)%nat eqn:E; simpl negb; run_goal;
    [discriminate|].
  call (proj1 (methods_run fuel)); [|discriminate].
  destruct (parseStatement_spans _ _ _ _ R) as (_ & LT).
  run_goal. apply IH. lia.
Qed.

(** *** Token sequences of the grammar are parsed *)

Local Abbreviation types := (map Token.type toks).

Lemma stream_head i ty rest :
  drop i types = ty :: rest ->
  exists t, toks !! i = Some t /\ Token.type t = ty /\
            drop (S i) types = rest.
Proof.
  intros H.
  assert (L : types !! i = Some ty).
  { rewrite <- (Nat.add_0_r i), <- lookup_drop, H. reflexivity. }
  pose proof (drop_S _ _ _ L) as D. rewrite H in D. inversion D; subst.
  change (map Token.type toks) with (Token.type <$> toks) in L.
  rewrite list_lookup_fmap in L.
  destruct (toks !! i) as [t|]; [|discriminate]. inversion L; subst.
  exists t. auto.
Qed.

Lemma stream_end i : drop i types = [] -> List.length toks <= i.
Proof.
  intros H. apply (f_equal List.length) in H.
  rewrite length_drop, length_map in H.
  simpl in H. lia.
Qed.

(** Take the next token of the stream in [D]. *)
Ltac next D :=
  let t := fresh "t" in
  let L := fresh "L" in
  let Q := fresh "Q" in
  apply stream_head in D; destruct D as (t & L & Q & D).

(** Run on, reading the tokens already taken from the stream. *)
Ltac reads :=
  repeat (run_goal; unfold typeIs;
    repeat match goal with
    | L : toks !! ?i = Some _ |- context [toks !! ?i] => rewrite L
    | Q : Token.type ?t = _ |- context [Token.type ?t] => rewrite Q
    end;
    simpl TokenType.eqb; simpl negb; cbv beta iota).

Lemma parseParamLoop_accepts arity : forall i post acc,
  drop i types = repeat TokenType.Identifier arity
                 ++ TokenType.RightParen :: post ->
  exists params j,
    drop j types = TokenType.RightParen :: post /\
    forall fuel, arity < fuel ->
      run σ (parseParamLoop fuel acc) i = Some (Return params, j).
Proof.
  induction arity as [|arity IH]; intros i post acc D; simpl in D.
  - exists acc, i. split; [exact D|]. intros fuel LT.
    destruct fuel as [|fuel]; [lia|]. simpl.
    next D. reads. reflexivity.
  - next D. destruct (IH _ _ (acc ++ [mkIdentifier (Token.value t)
                                 (Token.start t) (Token.end_ t)]) D)
      as (params & j & D' & RUN).
    exists params, j. split; [exact D'|]. intros fuel LT.
    destruct fuel as [|fuel]; [lia|]. simpl. reads.
    apply RUN. lia.
Qed.

Lemma StatementG_head ts :
  StatementG ts -> exists rest, ts = TokenType.Let :: rest.
Proof. intros H. destruct H. eexists. reflexivity. Qed.

Lemma methods_accept :
  (forall ts, StatementG ts ->
     forall i post, drop i types = ts ++ post ->
     exists fuel0 s j,
       drop j types = post /\
       forall fuel, fuel0 <= fuel ->
         run σ (parseStatement fuel) i = Some (Return s, j)) /\
  (forall ts n, StatementsG ts n ->
     (forall i post acc,
        drop i types = ts ++ TokenType.RightCurly :: post ->
        exists fuel0 new j,
          List.length new = n /\
          drop j types = TokenType.RightCurly :: post /\
          forall fuel, fuel0 <= fuel ->
            run σ (parseBlockLoop fuel acc) i =
            Some (Return (acc ++ new), j)) /\
     (forall i acc end_,
        drop i types = ts ->
        exists fuel0 new end' j,
          List.length new = n /\
          forall fuel, fuel0 <= fuel ->
            run σ (parseProgramLoop fuel acc end_) i =
            Some (Return (mkProgram (acc ++ new) (Num 0) end'), j))).
Proof.
  apply GrammarG_ind.
  - intros named arity inner n _ [IH _] i post D.
    rewrite <- !app_assoc in D. simpl in D.
    next D. next D. next D. next D.
    destruct named; simpl in D; [next D|]; next D;
      destruct (parseParamLoop_accepts arity _ _ [] D)
        as (params & j1 & D1 & RUNP);
      next D1; next D1;
      destruct (IH _ _ [] D1) as (fuel0 & new & j2 & LEN & D2 & RUNL);
      next D2;
      exists (4 + (S arity + fuel0)); eexists; exists (S j2);
      (split; [exact D2|]); intros fuel LE;
      (destruct fuel as [|[|[|[|fuel]]]]; try lia);
      simpl parseStatement; unfold parseParam; reads;
      (rewrite RUNP by lia); reads; (rewrite RUNL by lia); reads;
      reflexivity.
  - split.
    + intros i post acc D. simpl in D. exists 1, [], i.
      repeat apply conj; [reflexivity|exact D|].
      intros fuel LE. destruct fuel as [|fuel]; [lia|].
      next D. simpl. reads. now rewrite app_nil_r.
    + intros i acc end_ D. apply stream_end in D. exists 1, [], end_, i.
      split; [reflexivity|]. intros fuel LE.
      destruct fuel as [|fuel]; [lia|]. simpl. run_goal.
      apply Nat.leb_le in D. rewrite D. simpl. run_goal.
      now rewrite app_nil_r.
  - intros s rest n Gs IHs _ [IHl IHp].
    destruct (StatementG_head _ Gs) as (s' & Es). split.
    + intros i post acc D. rewrite <- app_assoc in D.
      destruct (IHs _ _ D) as (f1 & st & j & Dj & RUN1).
      destruct (IHl _ _ (acc ++ [st]) Dj)
        as (f2 & new & j' & LEN & D' & RUN2).
      exists (S (f1 + f2)), (st :: new), j'.
      repeat apply conj; [simpl; now rewrite LEN|exact D'|].
      intros fuel LE. destruct fuel as [|fuel]; [lia|].
      rewrite parseBlockLoop_S.
      rewrite Es in D. simpl in D. next D. unfold typeIs.
      rewrite L, Q. simpl. rewrite RUN1 by lia.
      rewrite RUN2 by lia. now rewrite <- app_assoc.
    + intros i acc end_ D.
      destruct (IHs _ _ D) as (f1 & st & j & Dj & RUN1).
      destruct (IHp j (acc ++ [st])
                  (if (List.length toks <=? j)%nat
                   then statementEnd st else end_) Dj)
        as (f2 & new & end' & j' & LEN & RUN2).
      exists (S (f1 + f2)), (st :: new), end', j'.
      split; [simpl; now rewrite LEN|].
      intros fuel LE. destruct fuel as [|fuel]; [lia|].
      rewrite Es in D. simpl in D. next D.
      apply lookup_lt_Some in L. simpl. run_goal.
      replace (List.length toks <=? i)%nat with false
        by (symmetry; apply Nat.leb_gt; lia).
      simpl. run_goal. rewrite RUN1 by lia. run_goal.
      rewrite RUN2 by lia. now rewrite <- app_assoc.
Qed.

(** *** How a parse fails *)

(** Close a branch that threw at a token read in the context. *)
Ltac thrown H :=
  inversion H; subst; clear H; unfold Failure;
  repeat match goal with
  | L : Some _ = Some _ |- _ => inversion L; subst; clear L
  end;
  match goal with
  | L : toks !! ?j = _ |- context [toks !! ?j] => rewrite L
  end;
  first
    [ reflexivity
    | left; eexists; split; [|reflexivity];
      let E := fresh "E" in
      intros E;
      match goal with
      | Q : TokenType.eqb _ _ = false |- _ =>
          rewrite <- E, TokenType_eqb_refl in Q; discriminate Q
      end
    | right; split; [|reflexivity];
      let E := fresh "E" in
      intros E;
      match goal with
      | T : typeIs toks ?j _ = false, L : toks !! ?j = Some _ |- _ =>
          unfold typeIs in T; rewrite L, E in T; discriminate T
      end ].

Lemma parseParamLoop_throws fuel : forall acc i e j,
  run σ (parseParamLoop fuel acc) i = Some (Throw e, j) ->
  Failure toks j e.
Proof.
  induction fuel as [|fuel IH]; intros acc i e j H; [discriminate|].
  simpl in H. returns H; first [now apply IH in H|thrown H].
Qed.

Lemma parseParam_throws fuel i e j :
  run σ (parseParam fuel) i = Some (Throw e, j) -> Failure toks j e.
Proof.
  unfold parseParam. intros H.
  returns H;
    first [ inversion H; subst; eapply parseParamLoop_throws; eassumption
          | thrown H ].
Qed.

(** Close a branch in which a call threw, by what is known of it. *)
Ltac rethrown H :=
  inversion H; subst; clear H;
  match goal with
  | R : run σ _ _ = Some (Throw _, _) |- _ => eauto
  end.

Lemma FunctionSpans_last i f j :
  FunctionSpans toks i f j ->
  exists k last, j = S k /\ toks !! k = Some last.
Proof.
  intros H. destruct H as [i k j id params body start HB _].
  destruct HB. eauto.
Qed.

Lemma methods_throw fuel :
  (forall i e j, run σ (parseStatement fuel) i = Some (Throw e, j) ->
     Failure toks j e) /\
  (forall i e j,
     run σ (parseVariableDeclaration fuel) i = Some (Throw e, j) ->
     Failure toks j e) /\
  (forall i e j,
     run σ (parseFunctionExpression fuel) i = Some (Throw e, j) ->
     Failure toks j e) /\
  (forall i e j, run σ (parseBlockStatement fuel) i = Some (Throw e, j) ->
     Failure toks j e) /\
  (forall acc i e j, run σ (parseBlockLoop fuel acc) i = Some (Throw e, j) ->
     Failure toks j e).
Proof.
  pose proof parseParam_throws as IHp.
  induction fuel as [|fuel (IHs & IHd & IHf & IHb & IHl)].
  { repeat apply conj; intros; discriminate. }
  repeat apply conj.
  - intros i e j H. simpl in H. returns H; [now apply IHd in H|thrown H..].
  - intros i e j H. simpl in H. returns H.
    { destruct (proj1 (proj2 (proj2 (methods_spans fuel)))
                  _ _ _ R) as [SF _].
      destruct (FunctionSpans_last _ _ _ SF) as (k & last & -> & LK).
      returns H; congruence. }
    all: first [rethrown H|thrown H].
  - intros i e j H. simpl in H.
    returns H; first [rethrown H|thrown H].
  - intros i e j H. simpl in H.
    returns H; first [rethrown H|thrown H].
  - intros acc i e j H. rewrite parseBlockLoop_S in H.
    returns H; first [now apply IHl in H|rethrown H|thrown H].
Qed.

Lemma parseProgramLoop_throws fuel : forall acc end_ i e j,
  run σ (parseProgramLoop fuel acc end_) i = Some (Throw e, j) ->
  Failure toks j e.
Proof.
  pose proof (fun fuel => proj1 (methods_throw fuel)) as IHs.
  induction fuel as [|fuel IH]; intros acc end_ i e j H; [discriminate|].
  simpl in H. run_in H.
  destruct (List.length toks <=? i)%nat; simpl negb in H;
    returns H; first [now apply IH in H|rethrown H].
Qed.
(** *** Every returned tree is the tree of its tokens *)

Lemma Segment_nil i : Segment toks i [] i.
Proof. reflexivity. Qed.

Lemma Segment_token i t :
  toks !! i = Some t -> Segment toks i [Token.type t] (S i).
Proof.
  intros L. unfold Segment. simpl. apply drop_S.
  change (map Token.type toks) with (Token.type <$> toks).
  now rewrite list_lookup_fmap, L.
Qed.

Lemma Segment_app i k j ts1 ts2 :
  Segment toks i ts1 k -> Segment toks k ts2 j ->
  Segment toks i (ts1 ++ ts2) j.
Proof.
  unfold Segment. intros H1 H2. now rewrite H1, H2, app_assoc.
Qed.

Lemma parseParamLoop_parsed fuel : forall acc i params j,
  run σ (parseParamLoop fuel acc) i = Some (Return params, j) ->
  exists new, params = acc ++ new /\ ParamsParsed toks i new j /\
              Segment toks i (repeat TokenType.Identifier (List.length new))
                j.
Proof.
  induction fuel as [|fuel IH]; intros acc i params j H; [discriminate|].
  simpl in H. rewrite (run_bind σ) in H by moves.
  rewrite (run_checkCurrentTokenType σ toks HOLD) in H. cbv beta iota in H.
  destruct (typeIs toks i TokenType.RightParen); simpl negb in H;
    cbv beta iota in H.
  - inversion H; subst. exists []. rewrite app_nil_r.
    split; [reflexivity|]. split; [constructor|apply Segment_nil].
  - returns H. destruct (IH _ _ _ _ H) as (new & -> & P & SEG).
    apply TokenType_eqb_eq in Q.
    exists (identifierOf t :: new). rewrite <- app_assoc.
    split; [reflexivity|]. split.
    + now apply Parsed_param.
    + pose proof (Segment_token _ _ L) as ST. rewrite Q in ST.
      exact (Segment_app _ _ _ [TokenType.Identifier] _ ST SEG).
Qed.

Lemma parseParam_parsed fuel i params j :
  run σ (parseParam fuel) i = Some (Return params, j) ->
  exists tOpen l tClose,
    toks !! i = Some tOpen /\ Token.type tOpen = TokenType.LeftParen /\
    ParamsParsed toks (S i) params l /\
    toks !! l = Some tClose /\ Token.type tClose = TokenType.RightParen /\
    j = S l /\
    Segment toks i
      ([TokenType.LeftParen]
       ++ repeat TokenType.Identifier (List.length params)
       ++ [TokenType.RightParen]) j.
Proof.
  unfold parseParam. intros H. returns H. inversion H; subst; clear H.
  destruct (parseParamLoop_parsed _ _ _ _ _ R) as (new & E & P & SEG).
  simpl in E. subst params. apply TokenType_eqb_eq in Q, Q0.
  pose proof (Segment_token _ _ L) as S0. rewrite Q in S0.
  pose proof (Segment_token _ _ L0) as S1. rewrite Q0 in S1.
  exists t, n, t0. repeat (split; [assumption || reflexivity|]).
  exact (Segment_app _ _ _ [TokenType.LeftParen] _ S0
           (Segment_app _ _ _ _ _ SEG S1)).
Qed.

Lemma FunctionParsed_last i f j :
  FunctionParsed toks i f j ->
  exists k closing,
    j = S k /\ toks !! k = Some closing /\
    functionEnd f = Token.end_ closing.
Proof.
  intros H. destruct H as [? ? ? ? ? ? ? ? ? ? ? ? ? ? ? ? ? ? HB].
  destruct HB. simpl. eauto.
Qed.

Lemma StatementParsed_last i s j :
  StatementParsed toks i s j ->
  exists k closing,
    j = S k /\ toks !! k = Some closing /\
    statementEnd s = Token.end_ closing.
Proof.
  intros H. inversion H; subst. simpl.
  eapply FunctionParsed_last; eassumption.
Qed.

Lemma methods_parsed fuel :
  (forall i s j, run σ (parseStatement fuel) i = Some (Return s, j) ->
     StatementParsed toks i s j /\
     exists ts, StatementG ts /\ Segment toks i ts j) /\
  (forall i s j,
     run σ (parseVariableDeclaration fuel) i = Some (Return s, j) ->
     StatementParsed toks i s j /\
     exists ts, StatementG ts /\ Segment toks i ts j) /\
  (forall i f j,
     run σ (parseFunctionExpression fuel) i = Some (Return f, j) ->
     FunctionParsed toks i f j /\
     exists named arity inner n,
       StatementsG inner n /\
       Segment toks i
         ([TokenType.Function]
          ++ (if named : bool then [TokenType.Identifier] else [])
          ++ [TokenType.LeftParen]
          ++ repeat TokenType.Identifier arity
          ++ [TokenType.RightParen; TokenType.LeftCurly]
          ++ inner ++ [TokenType.RightCurly]) j) /\
  (forall i b j, run σ (parseBlockStatement fuel) i = Some (Return b, j) ->
     BlockParsed toks i b j /\
     exists inner n,
       StatementsG inner n /\
       Segment toks i
         ([TokenType.LeftCurly] ++ inner ++ [TokenType.RightCurly]) j) /\
  (forall acc i body j,
     run σ (parseBlockLoop fuel acc) i = Some (Return body, j) ->
     exists new, body = acc ++ new /\ StatementsParsed toks i new j /\
     exists inner, StatementsG inner (List.length new) /\
                   Segment toks i inner j).
Proof.
  induction fuel as [|fuel (IHs & IHd & IHf & IHb & IHl)].
  { repeat apply conj; intros; discriminate. }
  repeat apply conj.
  - intros i s j H. simpl in H. returns H. now apply IHd.
  - intros i s j H. simpl in H. returns H.
    destruct (IHf _ _ _ R) as (PF & named & arity & inner & m & G & SEG).
    destruct (FunctionParsed_last _ _ _ PF) as (k & closing & -> & LK & EF).
    returns H. inversion H; subst; clear H. inversion L; subst; clear L.
    inversion LK; subst; clear LK. rewrite <- EF.
    apply TokenType_eqb_eq in Q, Q0, Q1.
    pose proof (Segment_token _ _ L0) as S0. rewrite Q in S0.
    pose proof (Segment_token _ _ L1) as S1. rewrite Q0 in S1.
    pose proof (Segment_token _ _ L2) as S2. rewrite Q1 in S2.
    split; [eapply Parsed_declaration; eauto|].
    eexists. split; [exact (G_declaration named arity inner m G)|].
    exact (Segment_app _ _ _ [TokenType.Let] _ S0
             (Segment_app _ _ _ [TokenType.Identifier] _ S1
                (Segment_app _ _ _ [TokenType.Assign] _ S2 SEG))).
  - intros i f j H. simpl in H.
    returns H; inversion H; subst; clear H; inversion L; subst; clear L;
      destruct (parseParam_parsed _ _ _ _ R)
        as (tOpen & l & tClose & LO & QO & PP & LC & QC & -> & SP);
      destruct (IHb _ _ _ R0) as (PB & inner & m & G & SB);
      apply TokenType_eqb_eq in Q;
      pose proof (Segment_token _ _ L0) as S0; rewrite Q in S0.
    + apply TokenType_eqb_eq in Q0.
      pose proof (Segment_token _ _ L1) as S1. rewrite Q0 in S1.
      split.
      * apply Parsed_function
          with (k := S (S i)) (l := l) (tOpen := tOpen) (tClose := tClose);
          auto.
        exact (Parsed_named toks (S i) t1 L1 Q0).
      * exists true, (List.length a), inner, m. split; [exact G|].
        unfold Segment in *. rewrite S0, S1, SP, SB. simpl.
        repeat (rewrite <- app_assoc; simpl). reflexivity.
    + split.
      * apply Parsed_function
          with (k := S i) (l := l) (tOpen := tOpen) (tClose := tClose);
          auto.
        now apply Parsed_anonymous.
      * exists false, (List.length a), inner, m. split; [exact G|].
        unfold Segment in *. rewrite S0, SP, SB. simpl.
        repeat (rewrite <- app_assoc; simpl). reflexivity.
  - intros i b j H. simpl in H. returns H.
    inversion H; subst; clear H. inversion L; inversion L1; subst.
    destruct (IHl _ _ _ _ R) as (new & E & PS & inner & G & SEG).
    simpl in E. subst a. apply TokenType_eqb_eq in Q, Q0.
    pose proof (Segment_token _ _ L0) as S0. rewrite Q in S0.
    pose proof (Segment_token _ _ L2) as S1. rewrite Q0 in S1.
    split; [now apply Parsed_block|].
    exists inner, (List.length new). split; [exact G|].
    exact (Segment_app _ _ _ [TokenType.LeftCurly] _ S0
             (Segment_app _ _ _ _ _ SEG S1)).
  - intros acc i body j H. rewrite parseBlockLoop_S in H.
    destruct (typeIs toks i TokenType.RightCurly).
    + inversion H; subst. exists []. rewrite app_nil_r.
      split; [reflexivity|]. split; [constructor|].
      exists []. split; [constructor|apply Segment_nil].
    + destruct (run σ (parseStatement fuel) i) as [[[s|e] k]|] eqn:R;
        try discriminate H.
      destruct (IHs _ _ _ R) as (PS & ts & Gs & SEGs).
      destruct (IHl _ _ _ _ H) as (new & -> & PR & inner & G & SEG).
      exists (s :: new). rewrite <- app_assoc.
      split; [reflexivity|]. split; [now apply Parsed_cons with (k := k)|].
      exists (ts ++ inner). split; [now apply G_cons|].
      now apply Segment_app with (k := k).
Qed.

Lemma parseProgramLoop_parsed fuel : forall acc end_ i p j,
  run σ (parseProgramLoop fuel acc end_) i = Some (Return p, j) ->
  exists new,
    body p = acc ++ new /\ StatementsParsed toks i new j /\
    (exists ts, StatementsG ts (List.length new) /\ Segment toks i ts j) /\
    List.length toks <= j /\
    programStart p = Num 0 /\
    programEnd p = (if new is [] then end_ else endOf toks).
Proof.
  induction fuel as [|fuel IH]; intros acc end_ i p j H; [discriminate|].
  simpl in H. run_in H.
  destruct (List.length toks <=? i)%nat eqn:E; simpl negb in H; run_in H.
  - inversion H; subst. exists []. rewrite app_nil_r. simpl.
    apply Nat.leb_le in E.
    split; [reflexivity|]. split; [constructor|].
    split; [exists []; split; [constructor|apply Segment_nil]|]. auto.
  - destruct (run σ (parseStatement fuel) i) as [[[s|e] k]|] eqn:R;
      try discriminate H.
    run_in H.
    destruct (proj1 (methods_parsed fuel) _ _ _ R) as (PS & ts & Gs & SEGs).
    destruct (StatementParsed_last _ _ _ PS) as (k' & closing & -> & LL & EL).
    destruct (IH _ _ _ _ _ H)
      as (new & -> & PR & (inner & G & SEG) & GE & ST & EN).
    exists (s :: new). rewrite <- app_assoc. simpl.
    split; [reflexivity|].
    split; [now apply Parsed_cons with (k := S k')|].
    split; [exists (ts ++ inner); split;
              [now apply G_cons|now apply Segment_app with (k := S k')]|].
    split; [exact GE|]. split; [exact ST|]. rewrite EN.
    destruct new as [|s' new]; [|reflexivity].
    inversion PR; subst.
    pose proof (lookup_lt_Some _ _ _ LL) as LT.
    apply Nat.leb_le in GE. rewrite GE. apply Nat.leb_le in GE.
    rewrite EL. unfold endOf. rewrite last_lookup.
    replace (Init.Nat.pred (List.length toks)) with k' by lia.
    now rewrite LL.
Qed.

(** *** The tree of a token sequence is what the methods return *)

Lemma parseParamLoop_complete i params l :
  ParamsParsed toks i params l ->
  typeIs toks l TokenType.RightParen = true ->
  forall acc fuel, List.length params < fuel ->
    run σ (parseParamLoop fuel acc) i = Some (Return (acc ++ params), l).
Proof.
  intros P STOP. induction P as [i|i j t params L Q P IH];
    intros acc fuel LT; (destruct fuel as [|fuel]; [simpl in LT; lia|]);
    simpl parseParamLoop.
  - run_goal. rewrite STOP. simpl. run_goal. now rewrite app_nil_r.
  - reads. rewrite (IH STOP) by (simpl in LT; lia).
    now rewrite <- app_assoc.
Qed.

Lemma StatementParsed_first i s j :
  StatementParsed toks i s j ->
  exists t, toks !! i = Some t /\ Token.type t = TokenType.Let.
Proof. intros H. inversion H; subst. eauto. Qed.

Lemma methods_complete :
  (forall i s j, StatementParsed toks i s j ->
     exists fuel0, forall fuel, fuel0 <= fuel ->
       run σ (parseStatement fuel) i = Some (Return s, j)) /\
  (forall i f j, FunctionParsed toks i f j ->
     exists fuel0, forall fuel, fuel0 <= fuel ->
       run σ (parseFunctionExpression fuel) i = Some (Return f, j)) /\
  (forall i b j, BlockParsed toks i b j ->
     exists fuel0, forall fuel, fuel0 <= fuel ->
       run σ (parseBlockStatement fuel) i = Some (Return b, j)) /\
  (forall i body j, StatementsParsed toks i body j ->
     (forall acc, typeIs toks j TokenType.RightCurly = true ->
        exists fuel0, forall fuel, fuel0 <= fuel ->
          run σ (parseBlockLoop fuel acc) i =
          Some (Return (acc ++ body), j)) /\
     (forall acc end_, List.length toks <= j ->
        exists fuel0, forall fuel, fuel0 <= fuel ->
          run σ (parseProgramLoop fuel acc end_) i =
          Some (Return (mkProgram (acc ++ body) (Num 0)
                          (if body is [] then end_ else endOf toks)), j))).
Proof.
  apply Parsed_ind.
  - intros i j tLet tId tAssign init L Q L0 Q0 L1 Q1 PF [fuel0 RUN].
    destruct (FunctionParsed_last _ _ _ PF) as (k & closing & -> & LK & EF).
    exists (2 + fuel0). intros fuel LE.
    destruct fuel as [|[|fuel]]; try lia.
    simpl parseStatement. reads. rewrite RUN by lia. reads.
    now rewrite EF.
  - intros i k l j tFunction name tOpen params tClose body
      L Q NAME L0 Q0 PP L1 Q1 _ [fuel0 RUN].
    exists (S (S (List.length params) + fuel0)). intros fuel LE.
    destruct fuel as [|fuel]; try lia.
    assert (STOP : typeIs toks l TokenType.RightParen = true)
      by (unfold typeIs; now rewrite L1, Q1).
    pose proof (parseParamLoop_complete _ _ _ PP STOP [] fuel
                  ltac:(lia)) as RUNP.
    simpl parseFunctionExpression. unfold parseParam.
    inversion NAME; subst; reads;
      rewrite RUNP; reads; rewrite RUN by lia; reads; reflexivity.
  - intros i j tOpen body tClose L Q _ [IH _] L0 Q0.
    assert (STOP : typeIs toks j TokenType.RightCurly = true)
      by (unfold typeIs; now rewrite L0, Q0).
    destruct (IH [] STOP) as [fuel0 RUN].
    exists (S fuel0). intros fuel LE. destruct fuel as [|fuel]; try lia.
    simpl parseBlockStatement. reads. rewrite RUN by lia. reads.
    reflexivity.
  - intros i. split.
    + intros acc STOP. exists 1. intros fuel LE.
      destruct fuel as [|fuel]; try lia.
      rewrite parseBlockLoop_S, STOP. now rewrite app_nil_r.
    + intros acc end_ GE. exists 1. intros fuel LE.
      destruct fuel as [|fuel]; try lia. simpl. run_goal.
      apply Nat.leb_le in GE. rewrite GE. simpl. run_goal.
      now rewrite app_nil_r.
  - intros i k j s rest PS [f1 RUN1] PR [IHl IHp].
    destruct (StatementParsed_first _ _ _ PS) as (tLet & LF & QF).
    destruct (StatementParsed_last _ _ _ PS) as (k' & closing & -> & LK & EL).
    split.
    + intros acc STOP. destruct (IHl (acc ++ [s]) STOP) as [f2 RUN2].
      exists (S (f1 + f2)). intros fuel LE.
      destruct fuel as [|fuel]; try lia.
      rewrite parseBlockLoop_S. unfold typeIs at 1.
      rewrite LF, QF. simpl. rewrite RUN1 by lia. rewrite RUN2 by lia.
      now rewrite <- app_assoc.
    + intros acc end_ GE.
      destruct (IHp (acc ++ [s])
                  (if (List.length toks <=? S k')%nat
                   then statementEnd s else end_) GE) as [f2 RUN2].
      exists (S (f1 + f2)). intros fuel LE.
      destruct fuel as [|fuel]; try lia.
      pose proof (lookup_lt_Some _ _ _ LF).
      simpl parseProgramLoop. run_goal.
      replace (List.length toks <=? i)%nat with false
        by (symmetry; apply Nat.leb_gt; lia).
      simpl. run_goal. rewrite RUN1 by lia. run_goal.
      rewrite RUN2 by lia. rewrite <- app_assoc. simpl.
      do 3 f_equal. destruct rest as [|s' rest]; [|reflexivity].
      inversion PR; subst.
      pose proof (lookup_lt_Some _ _ _ LK) as LT.
      replace (List.length toks <=? S k')%nat with true
        by (symmetry; apply Nat.leb_le; lia).
      rewrite EL. unfold endOf. rewrite last_lookup.
      replace (Init.Nat.pred (List.length toks)) with k' by lia.
      now rewrite LK.
Qed.

End Methods.

(** ** Counting the top-level declarations *)

Lemma topLevelLets_identifiers depth arity rest :
  topLevelLets depth (repeat TokenType.Identifier arity ++ rest) =
  topLevelLets depth rest.
Proof. induction arity as [|arity IH]; simpl; [reflexivity|exact IH]. Qed.

Lemma topLevelLets_grammar :
  (forall ts, StatementG ts ->
     forall depth rest,
       topLevelLets depth (ts ++ rest) =
       (if depth is O then 1 else 0) + topLevelLets depth rest) /\
  (forall ts n, StatementsG ts n ->
     forall depth rest,
       topLevelLets depth (ts ++ rest) =
       (if depth is O then n else 0) + topLevelLets depth rest).
Proof.
  apply GrammarG_ind.
  - intros named arity inner n _ IH depth rest.
    rewrite <- !app_assoc. simpl. f_equal.
    destruct named; simpl; rewrite topLevelLets_identifiers; simpl;
      rewrite IH; reflexivity.
  - intros depth rest. now destruct depth.
  - intros s rest n _ IHs _ IHr depth post.
    rewrite <- app_assoc, IHs, IHr. destruct depth; lia.
Qed.

Lemma topLevelLets_program ts n :
  StatementsG ts n -> topLevelLets 0 ts = n.
Proof.
  intros G. destruct topLevelLets_grammar as [_ H].
  specialize (H ts n G 0 []). rewrite app_nil_r in H. simpl in H. lia.
Qed.

(** ** The parser on a fresh array *)

Lemma Holds_newParser toks :
  Holds (newParser (storeOf toks) (seq 0 (List.length toks))) toks.
Proof.
  split.
  - intros i. unfold tokenAt, newParser, storeOf. simpl.
    destruct (decide (i < List.length toks)) as [LT|GE].
    + rewrite lookup_seq_lt by exact LT. simpl.
      now rewrite lookup_map_seq_0.
    + rewrite lookup_seq_ge by lia. simpl.
      symmetry. apply lookup_ge_None_2. lia.
  - simpl. apply length_seq.
Qed.

Lemma parse_run fuel h arr r σ' :
  parse fuel (newParser h arr) = Some (r, σ') ->
  run (newParser h arr) (parse fuel) 0 = Some (r, currentIndex σ').
Proof.
  intros H. unfold run.
  change (setIndex (newParser h arr) 0) with (newParser h arr).
  now rewrite H.
Qed.

Lemma parseTokens_run fuel toks r :
  parseTokens fuel toks = Some r <->
  exists j, run (newParser (storeOf toks) (seq 0 (List.length toks)))
              (parse fuel) 0 = Some (r, j).
Proof.
  unfold parseTokens, run.
  change (setIndex (newParser ?h ?a) 0) with (newParser h a).
  destruct (parse fuel _) as [[r' σ']|]; simpl; split.
  - intros H. inversion H; subst. eauto.
  - intros [j H]. inversion H; subst. reflexivity.
  - discriminate.
  - intros [j H]. discriminate.
Qed.

(** Any fuel from [fuelFor] on gives a result, and all give the same. *)
Lemma parse_fuel_enough fuel toks :
  fuelFor (List.length toks) <= fuel -> parseTokens fuel toks <> None.
Proof.
  intros LE H.
  pose proof (parseProgramLoop_runs _ _ (Holds_newParser toks) fuel []
                Infinity 0) as R.
  unfold parseTokens in H. unfold run in R.
  change (setIndex (newParser ?h ?a) 0) with (newParser h a) in R.
  change (parse fuel) with (parseProgramLoop fuel [] Infinity) in H.
  destruct (parseProgramLoop fuel [] Infinity _) as [[r σ']|];
    [discriminate|].
  apply R; [|reflexivity]. unfold fuelFor in LE. lia.
Qed.

Lemma parseTokens_fuel fuel fuel' toks r :
  fuel <= fuel' -> parseTokens fuel toks = Some r ->
  parseTokens fuel' toks = Some r.
Proof.
  unfold parseTokens. intros LE H.
  destruct (parse fuel _) as [[r0 σ0]|] eqn:E; [|discriminate].
  rewrite (parse_fuel _ _ _ _ LE E). exact H.
Qed.

Lemma parseTokens_deterministic fuel fuel' toks r r' :
  parseTokens fuel toks = Some r -> parseTokens fuel' toks = Some r' ->
  r = r'.
Proof.
  intros H H'. destruct (Nat.le_ge_cases fuel fuel') as [LE|LE].
  - rewrite (parseTokens_fuel _ _ _ _ LE H) in H'. congruence.
  - rewrite (parseTokens_fuel _ _ _ _ LE H') in H. congruence.
Qed.

Lemma runParse_total toks : exists r, runParse toks = Some r.
Proof.
  destruct (runParse toks) as [r|] eqn:E; [eauto|].
  now apply parse_fuel_enough in E.
Qed.

Lemma runParse_parseTokens fuel toks r :
  parseTokens fuel toks = Some r -> runParse toks = Some r.
Proof.
  intros H. destruct (runParse_total toks) as [r' E]. rewrite E.
  f_equal. eapply parseTokens_deterministic; eauto.
Qed.

(** Every failure of [parse] is of one of three kinds; the [TypeError] is
    that of a cursor past the last token. *)
Lemma parse_failure fuel toks e :
  parseTokens fuel toks = Some (Throw e) -> exists j, Failure toks j e.
Proof.
  intros H. apply parseTokens_run in H. destruct H as [j H].
  exists j. eapply parseProgramLoop_throws; [apply Holds_newParser|exact H].
Qed.

(** ** The scanner *)
Section ScannerFacts.
Variable isAlpha' : option ascii -> bool.

Lemma scanLetters_fuel fuel : forall fuel' source identifier i char r,
  fuel <= fuel' ->
  scanLetters isAlpha' fuel source identifier i char = Some r ->
  scanLetters isAlpha' fuel' source identifier i char = Some r.
Proof.
  induction fuel as [|fuel IH]; intros fuel' source identifier i char r LE H;
    [discriminate|].
  destruct fuel' as [|fuel']; [lia|]. simpl in *.
  destruct (isAlpha' char); [|exact H]. apply IH with (2 := H). lia.
Qed.

Lemma tokenizeLoop_fuel fuel : forall fuel' source tokens i r,
  fuel <= fuel' ->
  tokenizeLoop isAlpha' fuel source tokens i = Some r ->
  tokenizeLoop isAlpha' fuel' source tokens i = Some r.
Proof.
  induction fuel as [|fuel IH]; intros fuel' source tokens i r LE H;
    [discriminate|].
  destruct fuel' as [|fuel']; [lia|]. simpl in *.
  assert (LE' : fuel <= fuel') by lia.
  destruct (i <? String.length source)%nat; [|exact H].
  destruct (isSpace (String.get i source)); [now apply IH with (2 := H)|].
  destruct (isAlpha' (String.get i source)).
  - destruct (scanLetters isAlpha' fuel source "" i (String.get i source))
      as [[identifier i']|] eqn:E; [|discriminate].
    rewrite (scanLetters_fuel _ _ _ _ _ _ _ LE' E).
    destruct (TOKENS_GENERATOR.has identifier);
      [destruct (TOKENS_GENERATOR.call identifier i); [|exact H]|];
      now apply IH with (2 := H).
  - destruct (isSingleCharToken (String.get i source)).
    + destruct (String.get i source ≫= KNOWN_SINGLE_CHAR_TOKENS);
        [now apply IH with (2 := H)|exact H].
    + now apply IH with (2 := H).
Qed.

Lemma tokenizeReturns_deterministic input r r' :
  tokenizeReturns isAlpha' input r -> tokenizeReturns isAlpha' input r' ->
  r = r'.
Proof.
  intros [fuel H] [fuel' H']. unfold tokenize in *.
  destruct (Nat.le_ge_cases fuel fuel') as [LE|LE].
  - rewrite (tokenizeLoop_fuel _ _ _ _ _ _ LE H) in H'. congruence.
  - rewrite (tokenizeLoop_fuel _ _ _ _ _ _ LE H') in H. congruence.
Qed.

Lemma tokenizeDiverges_not_returns input r :
  tokenizeDiverges isAlpha' input -> ~ tokenizeReturns isAlpha' input r.
Proof. intros D [fuel H]. rewrite D in H. discriminate. Qed.

(** With the cursor on a character of none of the three classes, an
    iteration changes neither the cursor nor the tokens. *)
Lemma tokenizeLoop_stuck source tokens i :
  (i < String.length source)%nat ->
  isSpace (String.get i source) = false ->
  isAlpha' (String.get i source) = false ->
  isSingleCharToken (String.get i source) = false ->
  forall fuel, tokenizeLoop isAlpha' fuel source tokens i = None.
Proof.
  intros LT SP AL SC fuel. induction fuel as [|fuel IH]; [reflexivity|].
  simpl. apply Nat.ltb_lt in LT. rewrite LT, SP, AL, SC. exact IH.
Qed.
End ScannerFacts.

(** *** Sources of recognised characters *)
Section ScannerTotal.
Variable isAlpha' : option ascii -> bool.
Hypothesis isAlpha_undefined : isAlpha' None = false.

Lemma get_None source i :
(String.length source <= i)%nat -> String.get i source = None.
Proof.
revert i. induction source as [|c source IH]; intros i LE; [now destruct i|].
destruct i as [|i]; simpl in *; [lia|]. apply IH. lia.
Qed.

(** The inner loop stops at the end of the source at the latest, and
  consumes the letter it was entered on. *)
Lemma scanLetters_returns fuel : forall source identifier i,
(String.length source - i < fuel)%nat ->
exists identifier' i',
  scanLetters isAlpha' fuel source identifier i (String.get i source) =
    Some (identifier', i') /\
  (i <= i')%nat /\
  (isAlpha' (String.get i source) = true -> i < i')%nat.
Proof.
induction fuel as [|fuel IH]; intros source identifier i LT; [lia|].
simpl. destruct (isAlpha' (String.get i source)) eqn:A.
- assert (i < String.length source)%nat.
  { destruct (Nat.lt_ge_cases i (String.length source)) as [?|GE];
      [assumption|].
    rewrite (get_None _ _ GE), isAlpha_undefined in A. discriminate. }
  destruct (IH source
              (identifier ++ charToString (String.get i source))%string
              (S i)) as (identifier' & i' & E & LE & _); [lia|].
  exists identifier', i'. rewrite E. repeat apply conj; [reflexivity|lia|lia].
- exists identifier, i. repeat apply conj; [reflexivity|lia|discriminate].
Qed.

(** On a source made of spaces, letters and the five one-character tokens
  the scanner returns or throws: it does not run for ever. *)
Lemma tokenize_recognised_returns source :
(forall i, (i < String.length source)%nat ->
   isSpace (String.get i source) = true \/
   isAlpha' (String.get i source) = true \/
   isSingleCharToken (String.get i source) = true) ->
exists r, tokenizeReturns isAlpha' source r.
Proof.
intros REC.
assert (LOOP : forall fuel tokens i,
          (String.length source - i + 2 <= fuel)%nat ->
          tokenizeLoop isAlpha' fuel source tokens i <> None).
{ induction fuel as [|fuel IH]; intros tokens i LE; [lia|].
  simpl. destruct (i <? String.length source)%nat eqn:LT; [|discriminate].
  apply Nat.ltb_lt in LT.
  destruct (isSpace (String.get i source)) eqn:SP; [apply IH; lia|].
  destruct (isAlpha' (String.get i source)) eqn:AL.
  - destruct (scanLetters_returns fuel source "" i)
      as (identifier & i' & E & LE' & LT'); [lia|].
    rewrite E. specialize (LT' AL).
    destruct (TOKENS_GENERATOR.has identifier);
      [destruct (TOKENS_GENERATOR.call identifier i); [|discriminate]|];
      apply IH; lia.
  - destruct (REC i LT) as [?|[?|SC]]; try congruence. rewrite SC.
    destruct (String.get i source ≫= KNOWN_SINGLE_CHAR_TOKENS);
      [apply IH; lia|discriminate]. }
destruct (tokenize isAlpha' (String.length source + 2) source) as [r|] eqn:E.
- exists r, (String.length source + 2)%nat. exact E.
- exfalso. revert E. apply LOOP. lia.
Qed.
End ScannerTotal.

(** *** Runs of letters *)
Section ScannerWords.
Variable isAlpha' : option ascii -> bool.

Lemma append_empty (s : string) : (s ++ "")%string = s.
Proof.
induction s as [|a s IH]; [reflexivity|exact (f_equal (String a) IH)].
Qed.

Lemma append_cons (s : string) c w :
((s ++ String c "") ++ w)%string = (s ++ String c w)%string.
Proof.
induction s as [|a s IH]; [reflexivity|exact (f_equal (String a) IH)].
Qed.

Lemma scanLetters_run w : forall source identifier i fuel,
RunAt isAlpha' source i w -> (String.length w < fuel)%nat ->
scanLetters isAlpha' fuel source identifier i (String.get i source) =
Some ((identifier ++ w)%string, (i + String.length w)%nat).
Proof.
induction w as [|c w IH]; intros source identifier i fuel [RUN STOP] LT;
  (destruct fuel as [|fuel]; [simpl in LT; lia|]); simpl in *.
- rewrite Nat.add_0_r in *. now rewrite STOP, append_empty.
- destruct (RUN 0%nat ltac:(lia)) as [G A]. rewrite Nat.add_0_r in G.
  simpl in G, A. rewrite G, A. simpl.
  rewrite (IH source (identifier ++ String c "")%string (S i) fuel).
  + rewrite append_cons. do 2 f_equal. lia.
  + split.
    * intros k LK. destruct (RUN (S k) ltac:(lia)) as [G' A'].
      simpl in G', A'. split; [|exact A'].
      rewrite <- G'. f_equal. lia.
    * replace (S i + String.length w)%nat
        with (i + S (String.length w))%nat by lia.
      exact STOP.
  + lia.
Qed.

(** One iteration on a run of letters that is no key of the generator
  table pushes the Identifier token of the run, as wide as the run. *)
Lemma tokenizeLoop_word source tokens i w fuel :
RunAt isAlpha' source i w -> w <> ""%string ->
(i < String.length source)%nat ->
isSpace (String.get i source) = false ->
TOKENS_GENERATOR.has w = false ->
(String.length w < fuel)%nat ->
tokenizeLoop isAlpha' (S fuel) source tokens i =
tokenizeLoop isAlpha' fuel source
  (tokens ++ [Tok (mkToken TokenType.Identifier (Some w) (Num i)
                     (Num (i + String.length w)) None)])
  (i + String.length w).
Proof.
intros RUN NE LT SP HAS LF. simpl.
apply Nat.ltb_lt in LT. rewrite LT, SP.
assert (A : isAlpha' (String.get i source) = true).
{ destruct w as [|c w]; [congruence|].
  destruct (proj1 RUN 0%nat ltac:(simpl; lia)) as [G A].
  rewrite Nat.add_0_r in G. now rewrite G. }
rewrite A, (scanLetters_run w source "" i fuel RUN LF).
change ("" ++ w)%string with w. now rewrite HAS.
Qed.

(** The two reserved words give their keyword tokens. *)
Lemma tokenizeLoop_keyword source tokens i w fuel :
RunAt isAlpha' source i w -> (w = "let" \/ w = "function")%string ->
(i < String.length source)%nat ->
isSpace (String.get i source) = false ->
(String.length w < fuel)%nat ->
tokenizeLoop isAlpha' (S fuel) source tokens i =
tokenizeLoop isAlpha' fuel source
  (tokens ++ [Tok (if String.eqb w "let" then TOKENS_GENERATOR.let_ i
                   else TOKENS_GENERATOR.function i)])
  (i + String.length w).
Proof.
intros RUN KW LT SP LF. simpl.
apply Nat.ltb_lt in LT. rewrite LT, SP.
assert (A : isAlpha' (String.get i source) = true).
{ destruct (proj1 RUN 0%nat ltac:(destruct KW; subst; simpl; lia))
    as [G A].
  rewrite Nat.add_0_r in G. now rewrite G. }
rewrite A, (scanLetters_run w source "" i fuel RUN LF).
change ("" ++ w)%string with w. destruct KW; subst; reflexivity.
Qed.
End ScannerWords.

(** ** What the span relation says about each kind of node *)

Lemma BlockSpans_end toks i b j :
  BlockSpans toks i b j ->
  exists closing,
    toks !! (j - 1) = Some closing /\
    Token.type closing = TokenType.RightCurly /\
    blockEnd b = Token.end_ closing.
Proof.
  intros H. destruct H as [i j body opening closing _ _ _ L Q].
  exists closing. simpl. rewrite Nat.sub_0_r. auto.
Qed.

Lemma FunctionSpans_end toks i f j :
  FunctionSpans toks i f j -> functionEnd f = blockEnd (functionBody f).
Proof. intros H. now destruct H. Qed.

Lemma StatementSpans_end toks i s j :
  StatementSpans toks i s j ->
  exists last, toks !! (j - 1) = Some last /\
               statementEnd s = Token.end_ last.
Proof. intros H. destruct H. eauto. Qed.

Lemma parse_spans fuel h arr toks p σ' :
  Holds (newParser h arr) toks ->
  parse fuel (newParser h arr) = Some (Return p, σ') ->
  StatementsSpans toks 0 (body p) (List.length toks).
Proof.
  intros HOLD H. apply parse_run in H.
  destruct (parseProgramLoop_spans _ _ HOLD _ _ _ _ _ _ H) as (new & E & S & J);
    [lia|].
  simpl in E. rewrite E, <- J. exact S.
Qed.

(** ** The specification, sentence by sentence *)

(** C1 (refuted by the code): [tokenize] is not total.  On the source
    [let a = function(x, y) {}] the scanner reaches the comma, which is no
    space, no letter and none of the five one-character tokens, and then
    iterates for ever without moving the cursor: it returns for no amount
    of fuel. *)
Theorem tokenize_unrecognised_character_diverges :
  tokenizeDiverges isAlpha "let a = function(x, y) {}".
Proof.
  intros fuel. unfold tokenize.
  destruct (tokenizeLoop isAlpha fuel _ [] 0) as [r|] eqn:E; [|reflexivity].
  exfalso. apply (tokenizeLoop_fuel _ fuel (40 + fuel)) in E; [|lia].
  assert (S : tokenizeLoop isAlpha (40 + fuel) "let a = function(x, y) {}"
                [] 0 =
              tokenizeLoop isAlpha fuel "let a = function(x, y) {}"
                [Tok (TOKENS_GENERATOR.let_ 0);
                 Tok (TOKENS_GENERATOR.identifier 4 "a");
                 Tok (TOKENS_GENERATOR.assign 6);
                 Tok (TOKENS_GENERATOR.function 8);
                 Tok (TOKENS_GENERATOR.leftParen 16);
                 Tok (TOKENS_GENERATOR.identifier 17 "x")] 18)
    by reflexivity.
  rewrite S, tokenizeLoop_stuck in E;
    [discriminate|simpl; lia|reflexivity..].
Qed.

(** The same defect on the shortest input. *)
Lemma tokenize_semicolon_diverges : tokenizeDiverges isAlpha ";".
Proof.
  intros fuel. apply tokenizeLoop_stuck; [simpl; lia|reflexivity..].
Qed.

(** C2 (refuted by the code): the run of letters [assign] is no reserved
    word, yet the scanner emits for it the [Assign] token of [=], one
    character wide, and no [Identifier] token: the lookup [identifier in
    TOKENS_GENERATOR] accepts every key of the generator table. *)
Theorem tokenize_assign_word :
  tokenizeReturns isAlpha "assign"
    (Return [Tok (mkToken TokenType.Assign (Some "=") (Num 0) (Num 1) None)]).
Proof. exists 8. reflexivity. Qed.

(** The same lookup calls the [identifier] generator without a value, and
    finds the members of [Object.prototype]. *)
Lemma tokenize_identifier_word :
  tokenizeReturns isAlpha "identifier" (Throw TypeError).
Proof. exists 12. reflexivity. Qed.

Lemma tokenize_constructor_word :
  tokenizeReturns isAlpha "constructor" (Return [NumberObject 0]).
Proof. exists 13. reflexivity. Qed.

(** C3, as stated, fails on a stray identifier: the statement dispatcher
    throws an error that names the type it found and no expected type. *)
Lemma parse_stray_identifier_counterexample :
  exists r, runParse [TOKENS_GENERATOR.identifier 0 "a"] = Some r /\
            ~ ProgramOrExpectError r.
Proof.
  exists (Throw (Error (unexpectedMessage TokenType.Identifier))).
  split; [vm_compute; reflexivity|].
  intros [[p H]|(expected & actual & H)]; [discriminate|].
  inversion H.
Qed.

(** C3, amended: when [parse] fails with the cursor on a token, the error
    is descriptive and names that token's type as the one it got: either
    the error of [#goNext], which also names an expected type, different
    from it, or the error of [#parseStatement], which names no other and is
    thrown for any type but [Let]. *)
Theorem parse_failure_on_token fuel toks e σ' t :
  parse fuel (newParser (storeOf toks) (seq 0 (List.length toks))) =
    Some (Throw e, σ') ->
  toks !! currentIndex σ' = Some t ->
  (exists type, type <> Token.type t /\
     e = Error (expectMessage (One type) (Token.type t))) \/
  (Token.type t <> TokenType.Let /\
     e = Error (unexpectedMessage (Token.type t))).
Proof.
  intros H L. apply parse_run in H.
  pose proof (parseProgramLoop_throws _ _ (Holds_newParser toks)
                _ _ _ _ _ _ H) as F.
  unfold Failure in F. rewrite L in F. exact F.
Qed.

Lemma parse_failure_on_token_witness :
  let toks :=
    [TOKENS_GENERATOR.let_ 0; TOKENS_GENERATOR.identifier 4 "a";
     TOKENS_GENERATOR.assign 6; TOKENS_GENERATOR.function 8;
     TOKENS_GENERATOR.leftParen 16; TOKENS_GENERATOR.identifier 17 "x";
     TOKENS_GENERATOR.leftCurly 19] in
  let t := TOKENS_GENERATOR.leftCurly 19 in
  let e := Error "Expect Identifier, but got LeftCurly" in
  let σ' := mkState (storeOf toks) (seq 0 7) (seq 0 7) 6 in
  parse 20 (newParser (storeOf toks) (seq 0 (List.length toks))) =
    Some (Throw e, σ') /\
  toks !! currentIndex σ' = Some t /\
  ((exists type, type <> Token.type t /\
      e = Error (expectMessage (One type) (Token.type t))) \/
   (Token.type t <> TokenType.Let /\
      e = Error (unexpectedMessage (Token.type t)))).
Proof.
  intros toks t e σ'.
  assert (H : parse 20 (newParser (storeOf toks) (seq 0 (List.length toks))) =
              Some (Throw e, σ')) by (vm_compute; reflexivity).
  assert (L : toks !! currentIndex σ' = Some t) by reflexivity.
  split; [exact H|]. split; [exact L|].
  exact (parse_failure_on_token 20 toks e σ' t H L).
Defined.

(** Past the last token the parser reads a property of [undefined]: on the
    tokens of [let a =] the failure is a [TypeError]. *)
Lemma parse_truncated_declaration :
  let toks := [TOKENS_GENERATOR.let_ 0; TOKENS_GENERATOR.identifier 4 "a";
               TOKENS_GENERATOR.assign 6] in
  tokenizeReturns isAlpha "let a =" (Return (map Tok toks)) /\
  runParse toks = Some (Throw TypeError).
Proof. split; [exists 8|]; vm_compute; reflexivity. Qed.

(** Where the types of the tokens derive from the grammar, [parse] returns
    a Program whose body has as many statements as there are [let] tokens
    outside every pair of braces. *)
Lemma grammar_tokens_parse toks :
  ProgramG (map Token.type toks) ->
  exists p, runParse toks = Some (Return p) /\
            List.length (body p) = topLevelLets 0 (map Token.type toks).
Proof.
  intros [n G].
  pose proof (Holds_newParser toks) as HOLD.
  destruct (methods_accept _ _ HOLD) as [_ ACC].
  destruct (ACC _ _ G) as [_ PROG].
  destruct (PROG 0 [] Infinity eq_refl) as (fuel0 & new & end' & j & LEN & RUN).
  specialize (RUN fuel0 (Nat.le_refl _)).
  assert (P : parseTokens fuel0 toks =
              Some (Return (mkProgram new (Num 0) end'))).
  { apply parseTokens_run. exists j. exact RUN. }
  exists (mkProgram new (Num 0) end'). split.
  - now apply runParse_parseTokens with (fuel := fuel0).
  - simpl. rewrite LEN. symmetry. now apply topLevelLets_program.
Qed.

(** C4 (refuted by the code): the source [let assign = function() {}] is
    accepted by the grammar, as one top-level declaration of the name
    [assign], but [parse(tokenize(source))] does not succeed.  The code's
    scanner finds the name among the keys of its generator table and makes
    an Assign token of it, and [parse] throws on the tokens: no Program is
    returned, whatever the fuel. *)
Theorem accepted_source_named_assign_fails :
  let source := "let assign = function() {}" in
  let toks :=
    [TOKENS_GENERATOR.let_ 0; TOKENS_GENERATOR.assign 4;
     TOKENS_GENERATOR.assign 11; TOKENS_GENERATOR.function 13;
     TOKENS_GENERATOR.leftParen 21; TOKENS_GENERATOR.rightParen 22;
     TOKENS_GENERATOR.leftCurly 24; TOKENS_GENERATOR.rightCurly 25] in
  Spec.tokenize isAlpha source =
    [TOKENS_GENERATOR.let_ 0; TOKENS_GENERATOR.identifier 4 "assign";
     TOKENS_GENERATOR.assign 11; TOKENS_GENERATOR.function 13;
     TOKENS_GENERATOR.leftParen 21; TOKENS_GENERATOR.rightParen 22;
     TOKENS_GENERATOR.leftCurly 24; TOKENS_GENERATOR.rightCurly 25] /\
  Spec.Accepted isAlpha source 1 /\
  topLevelLets 0 (map Token.type (Spec.tokenize isAlpha source)) = 1 /\
  tokenizeReturns isAlpha source (Return (map Tok toks)) /\
  runParse toks = Some (Throw (Error "Expect Identifier, but got Assign")) /\
  forall fuel p, parseTokens fuel toks <> Some (Return p).
Proof.
  intros source toks.
  assert (R : runParse toks =
              Some (Throw (Error "Expect Identifier, but got Assign")))
    by (vm_compute; reflexivity).
  assert (T : Spec.tokenize isAlpha source =
    [TOKENS_GENERATOR.let_ 0; TOKENS_GENERATOR.identifier 4 "assign";
     TOKENS_GENERATOR.assign 11; TOKENS_GENERATOR.function 13;
     TOKENS_GENERATOR.leftParen 21; TOKENS_GENERATOR.rightParen 22;
     TOKENS_GENERATOR.leftCurly 24; TOKENS_GENERATOR.rightCurly 25])
    by (vm_compute; reflexivity).
  split; [exact T|]. split.
  { unfold Spec.Accepted. rewrite T.
    exact (G_cons _ [] 0 (G_declaration false 0 [] 0 G_nil) G_nil). }
  split; [rewrite T; reflexivity|].
  split; [exists 40; vm_compute; reflexivity|].
  split; [exact R|].
  intros fuel p H. apply runParse_parseTokens in H. congruence.
Qed.

(** C5 (refuted by the code): given a set of expected types that holds the
    current token's type, [#goNext] does not succeed.  After the membership
    test it compares the type with the array itself, which never are
    identical, and throws. *)
Theorem goNext_expected_set_member_throws :
  fst <$> goNext (Many [TokenType.Let; TokenType.Function])
            (newParser (storeOf [TOKENS_GENERATOR.let_ 0]) [0]) =
  Some (Throw (Error "Expect Let,Function, but got Let")).
Proof. vm_compute. reflexivity. Qed.

(** With a set, [#goNext] throws whatever the current token is. *)
Lemma goNext_Many_throws types σ t :
  tokenAt σ (currentIndex σ) = Some t ->
  goNext (Many types) σ =
  Some (Throw (Error (expectMessage (Many types) (Token.type t))), σ).
Proof.
  intros L. unfold goNext, bind, currentToken, prop, ret, throw.
  rewrite L. simpl.
  now destruct (existsb (TokenType.eqb (Token.type t)) types).
Qed.

(** With a single expected type it behaves as specified. *)
Lemma goNext_One_returns type σ t :
  tokenAt σ (currentIndex σ) = Some t -> Token.type t = type ->
  goNext (One type) σ = Some (Return t, setIndex σ (S (currentIndex σ))).
Proof.
  intros L Q. unfold goNext, bind, currentToken, prop, ret, throw, advance.
  rewrite L. simpl. rewrite Q, TokenType_eqb_refl. reflexivity.
Qed.

Lemma goNext_One_throws type σ t :
  tokenAt σ (currentIndex σ) = Some t -> Token.type t <> type ->
  goNext (One type) σ =
  Some (Throw (Error (expectMessage (One type) (Token.type t))), σ).
Proof.
  intros L Q. unfold goNext, bind, currentToken, prop, ret, throw.
  rewrite L. simpl.
  destruct (TokenType.eqb (Token.type t) type) eqn:E; [|reflexivity].
  now apply TokenType_eqb_eq in E.
Qed.

(** C6: parsing the tokens of [let a function() {}] throws the error that
    expects [Assign] and got [Function]; no Program is returned, whatever
    the fuel. *)
Theorem parse_missing_assign :
  let toks :=
    [TOKENS_GENERATOR.let_ 0; TOKENS_GENERATOR.identifier 4 "a";
     TOKENS_GENERATOR.function 6; TOKENS_GENERATOR.leftParen 14;
     TOKENS_GENERATOR.rightParen 15; TOKENS_GENERATOR.leftCurly 17;
     TOKENS_GENERATOR.rightCurly 18] in
  tokenizeReturns isAlpha "let a function() {}" (Return (map Tok toks)) /\
  runParse toks =
    Some (Throw (Error (expectMessage (One TokenType.Assign)
                          TokenType.Function))) /\
  expectMessage (One TokenType.Assign) TokenType.Function =
    "Expect Assign, but got Function" /\
  forall fuel p, parseTokens fuel toks <> Some (Return p).
Proof.
  intros toks.
  assert (R : runParse toks =
              Some (Throw (Error (expectMessage (One TokenType.Assign)
                                    TokenType.Function))))
    by (vm_compute; reflexivity).
  repeat apply conj; [exists 30; vm_compute; reflexivity|exact R|reflexivity|].
  intros fuel p H. apply runParse_parseTokens in H. congruence.
Qed.

(** C7: [parse(tokenize("let a = function() {}"))] is a Program with one
    [let] declaration of one declarator, whose id is named [a] and whose
    init is an anonymous function with no parameter and an empty block. *)
Theorem parse_example_declaration :
  let toks :=
    [TOKENS_GENERATOR.let_ 0; TOKENS_GENERATOR.identifier 4 "a";
     TOKENS_GENERATOR.assign 6; TOKENS_GENERATOR.function 8;
     TOKENS_GENERATOR.leftParen 16; TOKENS_GENERATOR.rightParen 17;
     TOKENS_GENERATOR.leftCurly 19; TOKENS_GENERATOR.rightCurly 20] in
  tokenizeReturns isAlpha "let a = function() {}" (Return (map Tok toks)) /\
  runParse toks =
    Some (Return
      (mkProgram
         [VariableDeclaration (Some "let")
            [mkVariableDeclarator
               (mkIdentifier (Some "a") (Num 4) (Num 5))
               (mkFunctionExpression None []
                  (mkBlockStatement [] (Num 19) (Num 21))
                  (Num 8) (Num 21))
               (Num 0) (Num 21)]
            (Num 0) (Num 21)]
         (Num 0) (Num 21))).
Proof. split; [exists 30|]; vm_compute; reflexivity. Qed.

(** C8: the empty source has no token, whatever [isAlpha] is, and the
    empty token array parses to a Program with an empty body, start 0 and
    an end left at [Infinity]. *)
Theorem parse_empty_source :
  (forall isAlpha', tokenizeReturns isAlpha' "" (Return [])) /\
  runParse [] = Some (Return (mkProgram [] (Num 0) Infinity)).
Proof. split; [intros isAlpha'; exists 1|vm_compute]; reflexivity. Qed.

(** C9: in every tree that [parse] returns, each block ends where its
    closing brace ends, each function expression ends where its body ends,
    and each declaration ends where the last token it consumed ends (the
    relation [StatementsSpans] states this of every node of the tree). *)
Theorem parse_tree_spans fuel toks p :
  parseTokens fuel toks = Some (Return p) ->
  StatementsSpans toks 0 (body p) (List.length toks).
Proof.
  unfold parseTokens. intros H.
  destruct (parse fuel _) as [[r σ']|] eqn:E; [|discriminate].
  simpl in H. inversion H; subst.
  exact (parse_spans _ _ _ _ _ _ (Holds_newParser toks) E).
Qed.

Lemma parse_tree_spans_witness :
  let toks :=
    [TOKENS_GENERATOR.let_ 0; TOKENS_GENERATOR.identifier 4 "add";
     TOKENS_GENERATOR.assign 8; TOKENS_GENERATOR.function 10;
     TOKENS_GENERATOR.identifier 19 "add"; TOKENS_GENERATOR.leftParen 22;
     TOKENS_GENERATOR.identifier 23 "x"; TOKENS_GENERATOR.identifier 25 "y";
     TOKENS_GENERATOR.rightParen 26; TOKENS_GENERATOR.leftCurly 28;
     TOKENS_GENERATOR.let_ 30; TOKENS_GENERATOR.identifier 34 "z";
     TOKENS_GENERATOR.assign 36; TOKENS_GENERATOR.function 38;
     TOKENS_GENERATOR.leftParen 46; TOKENS_GENERATOR.rightParen 47;
     TOKENS_GENERATOR.leftCurly 49; TOKENS_GENERATOR.rightCurly 50;
     TOKENS_GENERATOR.rightCurly 52] in
  let inner :=
    VariableDeclaration (Some "let")
      [mkVariableDeclarator (mkIdentifier (Some "z") (Num 34) (Num 35))
         (mkFunctionExpression None []
            (mkBlockStatement [] (Num 49) (Num 51)) (Num 38) (Num 51))
         (Num 30) (Num 51)]
      (Num 30) (Num 51) in
  let p :=
    mkProgram
      [VariableDeclaration (Some "let")
         [mkVariableDeclarator (mkIdentifier (Some "add") (Num 4) (Num 7))
            (mkFunctionExpression
               (Some (mkIdentifier (Some "add") (Num 19) (Num 22)))
               [mkIdentifier (Some "x") (Num 23) (Num 24);
                mkIdentifier (Some "y") (Num 25) (Num 26)]
               (mkBlockStatement [inner] (Num 28) (Num 53))
               (Num 10) (Num 53))
            (Num 0) (Num 53)]
         (Num 0) (Num 53)]
      (Num 0) (Num 53) in
  parseTokens 100 toks = Some (Return p) /\
  StatementsSpans toks 0 (body p) (List.length toks).
Proof.
  intros toks inner p.
  assert (H : parseTokens 100 toks = Some (Return p))
    by (vm_compute; reflexivity).
  split; [exact H|]. exact (parse_tree_spans 100 toks p H).
Defined.

(** C10: [parse] leaves its input alone.  Whether it returns or throws,
    the array given to the constructor and every token object of the heap
    are what they were; the parser's own copy is unchanged too, only the
    cursor moved. *)
Theorem parse_preserves_input fuel h arr r σ' :
  parse fuel (newParser h arr) = Some (r, σ') ->
  heap σ' = h /\ input σ' = arr /\ tokens σ' = arr.
Proof.
  intros H. destruct (Moves_parse fuel _ _ _ H) as [-> _]. auto.
Qed.

Lemma parse_preserves_input_witness :
  let toks :=
    [TOKENS_GENERATOR.let_ 0; TOKENS_GENERATOR.identifier 4 "a";
     TOKENS_GENERATOR.function 6] in
  let h := storeOf toks in
  let arr := [0; 1; 2; 1] in
  let r := Throw (Error "Expect Assign, but got Function") in
  let σ' := mkState h arr arr 2 in
  parse 10 (newParser h arr) = Some (r, σ') /\
  heap σ' = h /\ input σ' = arr /\ tokens σ' = arr.
Proof.
  intros toks h arr r σ'.
  assert (H : parse 10 (newParser h arr) = Some (r, σ'))
    by (vm_compute; reflexivity).
  split; [exact H|]. exact (parse_preserves_input 10 h arr r σ' H).
Defined.

(** * Further properties of the code *)

(** ** Strings *)

Lemma get_Some_lt s : forall i c,
  String.get i s = Some c -> (i < String.length s)%nat.
Proof.
  induction s as [|a s IH]; intros i c H; [now destruct i|].
  destruct i as [|i]; simpl in *; [lia|]. apply IH in H. lia.
Qed.

Lemma get_None_ge s : forall i,
  String.get i s = None -> (String.length s <= i)%nat.
Proof.
  induction s as [|a s IH]; intros i H; simpl; [lia|].
  destruct i as [|i]; simpl in H; [discriminate|]. apply IH in H. lia.
Qed.

Lemma substring_zero s : forall i, substring i 0 s = EmptyString.
Proof.
  induction s as [|a s IH]; intros [|i]; simpl; auto.
Qed.

Lemma substring_step s : forall i c m,
  String.get i s = Some c ->
  substring i (S m) s = String c (substring (S i) m s).
Proof.
  induction s as [|a s IH]; intros i c m H; [now destruct i|].
  destruct i as [|i]; simpl in H.
  - inversion H; subst. reflexivity.
  - simpl. rewrite (IH i c m H). reflexivity.
Qed.

Lemma recognised_get isAlpha' s :
  recognised isAlpha' s = true ->
  forall i c, String.get i s = Some c -> recognisedChar isAlpha' c = true.
Proof.
  induction s as [|a s IH]; intros R i c H; [now destruct i|].
  simpl in R. apply andb_prop in R. destruct R as [Ra Rs].
  destruct i as [|i]; simpl in H; [now inversion H; subst|eauto].
Qed.

Lemma unrecognised_get isAlpha' s :
  recognised isAlpha' s = false ->
  exists i c, String.get i s = Some c /\ recognisedChar isAlpha' c = false.
Proof.
  induction s as [|a s IH]; intros R; [discriminate|]. simpl in R.
  destruct (recognisedChar isAlpha' a) eqn:Ra.
  - destruct (IH R) as (i & c & G & U). exists (S i), c. auto.
  - exists 0%nat, a. auto.
Qed.

(** ** The scanner, one iteration at a time *)
Section ScanInversion.
Variable isAlpha' : option ascii -> bool.

Lemma RunAt_empty source i :
  isAlpha' (String.get i source) = false -> RunAt isAlpha' source i "".
Proof.
  intros A. split; [simpl; intros k LT; lia|].
  simpl. now rewrite Nat.add_0_r.
Qed.

Lemma RunAt_cons source i c w :
  String.get i source = Some c -> isAlpha' (Some c) = true ->
  RunAt isAlpha' source (S i) w -> RunAt isAlpha' source i (String c w).
Proof.
  intros G A [RUN STOP]. split.
  - intros [|k] LT; simpl in *.
    + rewrite Nat.add_0_r. auto.
    + destruct (RUN k ltac:(lia)) as [G' A']. split; [|exact A'].
      rewrite <- G'. f_equal. lia.
  - simpl. rewrite <- STOP. f_equal. f_equal. lia.
Qed.

(** A run lies inside the source and is the text of its span. *)
Lemma RunAt_inside source w : forall i,
  (i <= String.length source)%nat ->
  RunAt isAlpha' source i w ->
  (i + String.length w <= String.length source)%nat /\
  substring i (String.length w) source = w.
Proof.
  induction w as [|c w IH]; intros i LE [RUN STOP].
  - simpl. rewrite substring_zero, Nat.add_0_r. auto.
  - destruct (RUN 0%nat ltac:(simpl; lia)) as [G A].
    rewrite Nat.add_0_r in G. simpl in G, A.
    pose proof (get_Some_lt _ _ _ G) as LT.
    destruct (IH (S i) LT) as [LE' SUB].
    { split.
      - intros k LK. destruct (RUN (S k) ltac:(simpl; lia)) as [G' A'].
        simpl in G', A'. split; [|exact A'].
        rewrite <- G'. f_equal. lia.
      - rewrite <- STOP. simpl. f_equal. f_equal. lia. }
    simpl. split; [lia|]. now rewrite (substring_step _ _ _ _ G), SUB.
Qed.

Lemma scanLetters_past_end fuel : forall source identifier i,
  (String.length source <= i)%nat -> isAlpha' None = true ->
  scanLetters isAlpha' fuel source identifier i None = None.
Proof.
  induction fuel as [|fuel IH]; intros source identifier i LE A;
    [reflexivity|].
  simpl. rewrite A, (get_None source (S i)) by lia. apply IH; [lia|exact A].
Qed.

(** What the inner loop answers: the run of letters at the cursor. *)
Lemma scanLetters_inv fuel : forall source identifier i identifier' i',
  scanLetters isAlpha' fuel source identifier i (String.get i source) =
    Some (identifier', i') ->
  exists w, identifier' = (identifier ++ w)%string /\
            i' = (i + String.length w)%nat /\
            RunAt isAlpha' source i w.
Proof.
  induction fuel as [|fuel IH]; intros source identifier i identifier' i' H;
    [discriminate|].
  simpl in H. destruct (isAlpha' (String.get i source)) eqn:A.
  - destruct (String.get i source) as [c|] eqn:G.
    + destruct (IH _ _ _ _ _ H) as (w & -> & -> & RUN).
      exists (String c w). simpl. rewrite append_cons.
      split; [reflexivity|]. split; [lia|now apply RunAt_cons].
    + apply get_None_ge in G.
      rewrite (get_None source (S i)) in H by lia.
      rewrite scanLetters_past_end in H; [discriminate|lia|exact A].
  - inversion H; subst. exists EmptyString. rewrite append_empty. simpl.
    split; [reflexivity|]. split; [lia|now apply RunAt_empty].
Qed.
End ScanInversion.

(** An invariant of the pushed tokens and the cursor that every kind of
    iteration keeps holds of what [tokenize] returns. *)
Section ScanInvariant.
Variable isAlpha' : option ascii -> bool.
Variable source : string.
Variable Inv : list Pushed -> nat -> Prop.

Hypothesis Inv_space : forall tokens i,
  Inv tokens i -> isSpace (String.get i source) = true ->
  (i < String.length source)%nat -> Inv tokens (S i).

Hypothesis Inv_word : forall tokens i w v,
  Inv tokens i -> (i < String.length source)%nat ->
  isSpace (String.get i source) = false ->
  w <> EmptyString -> RunAt isAlpha' source i w ->
  wordValue w i = Return v ->
  Inv (tokens ++ [v]) (i + String.length w).

Hypothesis Inv_single : forall tokens i c generator,
  Inv tokens i -> String.get i source = Some c ->
  isSpace (Some c) = false -> isAlpha' (Some c) = false ->
  KNOWN_SINGLE_CHAR_TOKENS c = Some generator ->
  Inv (tokens ++ [Tok (generator i)]) (S i).

Lemma tokenizeLoop_invariant fuel : forall tokens i r,
  Inv tokens i ->
  tokenizeLoop isAlpha' fuel source tokens i = Some (Return r) ->
  exists j, Inv r j /\ (String.length source <= j)%nat.
Proof.
  induction fuel as [|fuel IH]; intros tokens i r INV H; [discriminate|].
  simpl in H. destruct (i <? String.length source)%nat eqn:LT.
  2:{ inversion H; subst. apply Nat.ltb_ge in LT. eauto. }
  apply Nat.ltb_lt in LT.
  destruct (isSpace (String.get i source)) eqn:SP; [eauto|].
  destruct (isAlpha' (String.get i source)) eqn:AL.
  - destruct (scanLetters isAlpha' fuel source "" i (String.get i source))
      as [[identifier i']|] eqn:SCAN; [|discriminate].
    destruct (scanLetters_inv _ _ _ _ _ _ _ SCAN) as (w & -> & -> & RUN).
    change ("" ++ w)%string with w in H.
    assert (NE : w <> EmptyString).
    { intros ->. destruct RUN as [_ STOP]. simpl in STOP.
      rewrite Nat.add_0_r in STOP. congruence. }
    assert (W : exists v, wordValue w i = Return v /\
                tokenizeLoop isAlpha' fuel source (tokens ++ [v])
                  (i + String.length w) = Some (Return r)).
    { unfold wordValue. destruct (TOKENS_GENERATOR.has w); [|eauto].
      destruct (TOKENS_GENERATOR.call w i) as [v|e]; [eauto|discriminate]. }
    destruct W as (v & V & H'). eapply IH; [|exact H'].
    eapply Inv_word; eauto.
  - destruct (isSingleCharToken (String.get i source)) eqn:SC; [|eauto].
    destruct (String.get i source) as [c|] eqn:G; [|discriminate].
    simpl in H. destruct (KNOWN_SINGLE_CHAR_TOKENS c) as [g|] eqn:K;
      [|discriminate].
    eapply IH; [|exact H]. eapply Inv_single; eauto.
Qed.
End ScanInvariant.

(** ** The tokens of a run of letters *)

(** Whatever token the letters branch builds starts at the run, is as wide
    as its value is long and no wider than the run; a word token's value
    is the run, and an Identifier token is built for no key of the
    table. *)
Lemma wordValue_token w start t :
  wordValue w start = Return (Tok t) -> w <> EmptyString ->
  exists v,
    Token.value t = Some v /\ Token.start t = Num start /\
    Token.end_ t = Num (start + String.length v) /\
    (1 <= String.length v <= String.length w)%nat /\
    (isWord (Token.type t) = true -> v = w) /\
    (Token.type t = TokenType.Identifier ->
     TOKENS_GENERATOR.has w = false).
Proof.
  intros H NE. unfold wordValue in H.
  destruct (TOKENS_GENERATOR.has w) eqn:HAS.
  - unfold TOKENS_GENERATOR.call in H.
    repeat match type of H with
    | (if String.eqb ?a ?b then _ else _) = _ =>
        let E := fresh "E" in
        destruct (String.eqb a b) eqn:E;
        [apply String.eqb_eq in E; subst w|clear E]
    end;
    try discriminate H; inversion H; subst; clear H;
    eexists; (split; [reflexivity|]); (split; [reflexivity|]);
    (split; [reflexivity|]); (split; [simpl; lia|]);
    split; intros Q; try discriminate Q; reflexivity.
  - inversion H; subst; clear H. exists w. simpl.
    repeat split; auto. destruct w; [congruence|simpl; lia].
Qed.

(** ** Spans in order *)

Lemma spansFrom_le pushed : forall lo hi,
  spansFrom lo pushed hi -> lo <= hi.
Proof.
  induction pushed as [|p pushed IH]; intros lo hi H; simpl in H;
    [exact H|].
  destruct p; eauto.
  destruct H as (s & e & _ & _ & L1 & L2 & H). apply IH in H. lia.
Qed.

Lemma spansFrom_lower pushed : forall lo lo' hi,
  lo' <= lo -> spansFrom lo pushed hi -> spansFrom lo' pushed hi.
Proof.
  induction pushed as [|p pushed IH]; intros lo lo' hi LE H; simpl in *;
    [lia|].
  destruct p; eauto.
  destruct H as (s & e & ? & ? & ? & ? & H). exists s, e.
  repeat split; auto. lia.
Qed.

Lemma spansFrom_app l1 : forall lo mid l2 hi,
  spansFrom lo l1 mid -> spansFrom mid l2 hi -> spansFrom lo (l1 ++ l2) hi.
Proof.
  induction l1 as [|p l1 IH]; intros lo mid l2 hi H1 H2; simpl in *.
  - now apply spansFrom_lower with (lo := mid).
  - destruct p; eauto.
    destruct H1 as (s & e & ? & ? & ? & ? & H1). exists s, e.
    repeat split; eauto.
Qed.

Lemma tokenize_spans isAlpha' source pushed :
  tokenizeReturns isAlpha' source (Return pushed) ->
  spansFrom 0 pushed (String.length source).
Proof.
  intros [fuel H].
  destruct (tokenizeLoop_invariant isAlpha' source
              (fun tokens i => spansFrom 0 tokens i /\
                               (i <= String.length source)%nat))
    with (fuel := fuel) (tokens := @nil Pushed) (i := 0%nat) (r := pushed)
    as (j & [SP LE] & GE); try exact H.
  - intros tokens i [SP LE] _ LT. split; [|lia].
    apply spansFrom_app with (mid := i) (l2 := []) (hi := S i) in SP;
      [|simpl; lia].
    now rewrite app_nil_r in SP.
  - intros tokens i w v [SP LE] LT _ NE RUN V.
    destruct (RunAt_inside _ _ _ _ LE RUN) as [IN _]. split; [|exact IN].
    apply spansFrom_app with (mid := i); [exact SP|].
    destruct v as [t| | | | |]; simpl; try lia.
    destruct (wordValue_token _ _ _ V NE) as (x & _ & ST & EN & [L1 L2] & _).
    exists i, (i + String.length x)%nat. repeat split; auto; lia.
  - intros tokens i c g [SP LE] G _ _ K. apply get_Some_lt in G.
    split; [|lia]. apply spansFrom_app with (mid := i); [exact SP|].
    unfold KNOWN_SINGLE_CHAR_TOKENS in K.
    repeat match type of K with
    | (if ?b then _ else _) = _ => destruct b
    end; inversion K; subst; simpl;
      exists i, (i + 1)%nat; repeat split; auto; lia.
  - split; simpl; lia.
  - assert (j = String.length source) by lia. now subst.
Qed.

(** ** Word tokens and the text they stand for *)

Lemma single_char_token c generator start :
  KNOWN_SINGLE_CHAR_TOKENS c = Some generator ->
  Token.value (generator start) = Some (String c EmptyString) /\
  Token.start (generator start) = Num start /\
  Token.end_ (generator start) = Num (start + 1) /\
  isWord (Token.type (generator start)) = false.
Proof.
  unfold KNOWN_SINGLE_CHAR_TOKENS. intros K.
  repeat match type of K with
  | (if Ascii.eqb ?a ?b then _ else _) = _ =>
      let E := fresh "E" in
      destruct (Ascii.eqb a b) eqn:E; [apply Ascii.eqb_eq in E; subst c|]
  end; inversion K; subst; repeat split.
Qed.

Lemma tokenize_carries isAlpha' source pushed :
  tokenizeReturns isAlpha' source (Return pushed) ->
  Forall (carriesSource source) pushed.
Proof.
  intros [fuel H].
  destruct (tokenizeLoop_invariant isAlpha' source
              (fun tokens _ => Forall (carriesSource source) tokens))
    with (fuel := fuel) (tokens := @nil Pushed) (i := 0%nat) (r := pushed)
    as (j & F & _); auto; try exact H.
  - intros tokens i w v F LT _ NE RUN V. apply Forall_app. split; [exact F|].
    constructor; [|constructor].
    destruct v as [t| | | | |]; simpl; auto. intros WORD.
    destruct (wordValue_token _ _ _ V NE) as (x & VAL & ST & EN & _ & X & _).
    rewrite (X WORD) in *.
    destruct (RunAt_inside _ _ _ _ (Nat.lt_le_incl _ _ LT) RUN) as [_ SUB].
    exists i, (i + String.length w)%nat.
    replace (i + String.length w - i)%nat with (String.length w) by lia.
    rewrite SUB. auto.
  - intros tokens i c g F _ _ _ K. apply Forall_app. split; [exact F|].
    constructor; [|constructor]. simpl. intros WORD.
    destruct (single_char_token c g i K) as (_ & _ & _ & W). congruence.
Qed.

Lemma tokenize_named isAlpha' source pushed :
  tokenizeReturns isAlpha' source (Return pushed) ->
  Forall namedFreely pushed.
Proof.
  intros [fuel H].
  destruct (tokenizeLoop_invariant isAlpha' source
              (fun tokens _ => Forall namedFreely tokens))
    with (fuel := fuel) (tokens := @nil Pushed) (i := 0%nat) (r := pushed)
    as (j & F & _); auto; try exact H.
  - intros tokens i w v F _ _ NE _ V. apply Forall_app. split; [exact F|].
    constructor; [|constructor].
    destruct v as [t| | | | |]; simpl; auto. intros ID.
    destruct (wordValue_token _ _ _ V NE) as (x & VAL & _ & _ & _ & X & K).
    rewrite ID in X. rewrite (X eq_refl) in VAL. exists w. auto.
  - intros tokens i c g F _ _ _ K. apply Forall_app. split; [exact F|].
    constructor; [|constructor]. simpl. intros ID.
    destruct (single_char_token c g i K) as (_ & _ & _ & W).
    rewrite ID in W. discriminate.
Qed.

(** ** Which sources the scanner finishes *)

Lemma tokenize_recognised isAlpha' source :
  isAlpha' None = false -> recognised isAlpha' source = true ->
  exists r, tokenizeReturns isAlpha' source r.
Proof.
  intros UNDEF REC. apply tokenize_recognised_returns; [exact UNDEF|].
  intros i LT. destruct (String.get i source) as [c|] eqn:G.
  - pose proof (recognised_get _ _ REC _ _ G) as R. unfold recognisedChar in R.
    apply orb_prop in R. destruct R as [R|R]; [|auto].
    apply orb_prop in R. tauto.
  - apply get_None_ge in G. lia.
Qed.

Lemma tokenize_unrecognised isAlpha' source pushed :
  recognised isAlpha' source = false ->
  ~ tokenizeReturns isAlpha' source (Return pushed).
Proof.
  intros REC [fuel H].
  destruct (unrecognised_get _ _ REC) as (k & c & G & U).
  unfold recognisedChar in U. apply orb_false_elim in U.
  destruct U as [U SC]. apply orb_false_elim in U. destruct U as [SP AL].
  pose proof (get_Some_lt _ _ _ G) as LT.
  destruct (tokenizeLoop_invariant isAlpha' source (fun _ i => i <= k))
    with (fuel := fuel) (tokens := @nil Pushed) (i := 0%nat) (r := pushed)
    as (j & LE & GE); try exact H; try lia.
  - intros _ i LE SPi _.
    destruct (Nat.eq_dec i k) as [->|NE]; [|lia].
    rewrite G in SPi. congruence.
  - intros _ i w _ LE _ _ _ [RUN _] _.
    destruct (Nat.le_gt_cases (i + String.length w) k) as [?|GT];
      [assumption|].
    destruct (RUN (k - i) ltac:(lia)) as [Gk Ak].
    replace (i + (k - i)) with k in Gk by lia.
    rewrite <- Gk, G in Ak. congruence.
  - intros _ i c' g LE Gi _ _ K.
    destruct (Nat.eq_dec i k) as [->|NE]; [|lia].
    rewrite G in Gi. inversion Gi; subst.
    unfold isSingleCharToken in SC. simpl in SC. rewrite K in SC.
    discriminate.
Qed.

(** ** The tree relation under concatenation of token sequences *)

Lemma typeIs_app_l toks1 toks2 i type :
  i < List.length toks1 ->
  typeIs (toks1 ++ toks2) i type = typeIs toks1 i type.
Proof. intros LT. unfold typeIs. now rewrite lookup_app_l. Qed.

Lemma lookup_shift (toks1 toks2 : list Token) i :
  (toks1 ++ toks2) !! (List.length toks1 + i) = toks2 !! i.
Proof. rewrite lookup_app_r by lia. f_equal. lia. Qed.

Lemma ParamsParsed_app_l toks1 toks2 i params j :
  ParamsParsed toks1 i params j -> ParamsParsed (toks1 ++ toks2) i params j.
Proof.
  induction 1 as [i|i j t params L Q _ IH]; [constructor|].
  apply Parsed_param; auto. now apply lookup_app_l_Some.
Qed.

Lemma ParamsParsed_shift toks1 toks2 i params j :
  ParamsParsed toks2 i params j ->
  ParamsParsed (toks1 ++ toks2) (List.length toks1 + i) params
    (List.length toks1 + j).
Proof.
  induction 1 as [i|i j t params L Q _ IH]; [constructor|].
  apply Parsed_param; auto; [now rewrite lookup_shift|].
  now rewrite <- Nat.add_succ_r.
Qed.

Lemma NameParsed_shift toks1 toks2 i name k :
  NameParsed toks2 i name k ->
  NameParsed (toks1 ++ toks2) (List.length toks1 + i) name
    (List.length toks1 + k).
Proof.
  intros H. inversion H; subst.
  - rewrite Nat.add_succ_r. apply Parsed_named; auto.
    now rewrite lookup_shift.
  - apply Parsed_anonymous. unfold typeIs in *. now rewrite lookup_shift.
Qed.

Lemma Parsed_app_l toks1 toks2 :
  (forall i s j, StatementParsed toks1 i s j ->
     StatementParsed (toks1 ++ toks2) i s j) /\
  (forall i f j, FunctionParsed toks1 i f j ->
     FunctionParsed (toks1 ++ toks2) i f j) /\
  (forall i b j, BlockParsed toks1 i b j ->
     BlockParsed (toks1 ++ toks2) i b j) /\
  (forall i body j, StatementsParsed toks1 i body j ->
     StatementsParsed (toks1 ++ toks2) i body j).
Proof.
  apply Parsed_ind.
  - intros. eapply Parsed_declaration; eauto using lookup_app_l_Some.
  - intros i k l j tFunction name tOpen params tClose body
      L Q NAME L0 Q0 PP L1 Q1 _ IH.
    apply Parsed_function with (k := k) (l := l) (tOpen := tOpen)
      (tClose := tClose); auto using lookup_app_l_Some, ParamsParsed_app_l.
    inversion NAME; subst.
    + apply Parsed_named; auto using lookup_app_l_Some.
    + apply Parsed_anonymous. rewrite typeIs_app_l; [assumption|].
      eapply lookup_lt_Some; eassumption.
  - intros. apply Parsed_block; auto using lookup_app_l_Some.
  - constructor.
  - intros. eapply Parsed_cons; eauto.
Qed.

Lemma Parsed_shift toks1 toks2 :
  (forall i s j, StatementParsed toks2 i s j ->
     StatementParsed (toks1 ++ toks2) (List.length toks1 + i) s
       (List.length toks1 + j)) /\
  (forall i f j, FunctionParsed toks2 i f j ->
     FunctionParsed (toks1 ++ toks2) (List.length toks1 + i) f
       (List.length toks1 + j)) /\
  (forall i b j, BlockParsed toks2 i b j ->
     BlockParsed (toks1 ++ toks2) (List.length toks1 + i) b
       (List.length toks1 + j)) /\
  (forall i body j, StatementsParsed toks2 i body j ->
     StatementsParsed (toks1 ++ toks2) (List.length toks1 + i) body
       (List.length toks1 + j)).
Proof.
  apply Parsed_ind.
  - intros i j tLet tId tAssign init L Q L0 Q0 L1 Q1 _ IH.
    rewrite !Nat.add_succ_r in IH.
    eapply Parsed_declaration; eauto;
      rewrite <- ?Nat.add_succ_r; now rewrite lookup_shift.
  - intros i k l j tFunction name tOpen params tClose body
      L Q NAME L0 Q0 PP L1 Q1 _ IH.
    rewrite Nat.add_succ_r in IH.
    apply Parsed_function
      with (k := List.length toks1 + k) (l := List.length toks1 + l)
           (tOpen := tOpen) (tClose := tClose);
      auto; try (now rewrite lookup_shift).
    + rewrite <- Nat.add_succ_r. now apply NameParsed_shift.
    + rewrite <- Nat.add_succ_r. now apply ParamsParsed_shift.
  - intros i j tOpen body tClose L Q _ IH L0 Q0.
    rewrite Nat.add_succ_r in *.
    apply Parsed_block; auto; now rewrite lookup_shift.
  - constructor.
  - intros. eapply Parsed_cons; eauto.
Qed.

Lemma StatementsParsed_app toks i k j body1 body2 :
  StatementsParsed toks i body1 k -> StatementsParsed toks k body2 j ->
  StatementsParsed toks i (body1 ++ body2) j.
Proof.
  induction 1 as [i|i k' k s rest PS _ IH]; intros H2; [exact H2|].
  simpl. eapply Parsed_cons; eauto.
Qed.

(** ** What [parse] returns *)

Lemma endOf_nil_body toks :
  StatementsParsed toks 0 [] (List.length toks) -> endOf toks = Infinity.
Proof.
  intros H. inversion H as [i E|]; subst.
  destruct toks; [reflexivity|discriminate].
Qed.

Lemma parseTokens_parsed fuel toks p :
  parseTokens fuel toks = Some (Return p) ->
  ProgramParsed toks p /\
  StatementsG (map Token.type toks) (List.length (body p)).
Proof.
  intros H. apply parseTokens_run in H. destruct H as [j H].
  pose proof (Holds_newParser toks) as HOLD.
  destruct (parseProgramLoop_spans _ _ HOLD _ _ _ _ _ _ H) as (_ & _ & _ & ->);
    [lia|].
  destruct (parseProgramLoop_parsed _ _ HOLD _ _ _ _ _ _ H)
    as (new & E & PS & (ts & G & SEG) & _ & ST & EN).
  simpl in E. rewrite <- E in *. split.
  - split; [exact PS|]. split; [exact ST|]. rewrite EN.
    destruct (body p); [|reflexivity]. symmetry. now apply endOf_nil_body.
  - unfold Segment in SEG. rewrite drop_0 in SEG.
    rewrite (drop_ge _ (List.length toks)) in SEG
      by (rewrite length_map; lia).
    rewrite app_nil_r in SEG. now rewrite SEG.
Qed.

Lemma parsed_parseTokens toks p :
  ProgramParsed toks p -> runParse toks = Some (Return p).
Proof.
  intros (PS & ST & EN).
  pose proof (Holds_newParser toks) as HOLD.
  destruct (methods_complete _ _ HOLD) as (_ & _ & _ & C).
  destruct (C _ _ _ PS) as [_ PROG].
  destruct (PROG [] Infinity (Nat.le_refl _)) as [fuel0 RUN].
  specialize (RUN fuel0 (Nat.le_refl _)). simpl in RUN.
  apply runParse_parseTokens with (fuel := fuel0).
  apply parseTokens_run. exists (List.length toks).
  assert (p = mkProgram (body p) (Num 0)
                (if body p is [] then Infinity else endOf toks)) as ->;
    [|exact RUN].
  destruct p as [b s e]. simpl in *. subst. f_equal.
  destruct b; [|reflexivity]. now apply endOf_nil_body.
Qed.

Lemma spansFrom_last toks : forall lo hi t,
  spansFrom lo (map Tok toks) hi -> last toks = Some t ->
  exists e, Token.end_ t = Num e /\ lo < e /\ e <= hi.
Proof.
  induction toks as [|t0 toks IH]; intros lo hi t SP L; [discriminate|].
  simpl in SP. destruct SP as (s & e & _ & E & LO & LT & SP).
  destruct toks as [|t1 toks].
  - simpl in L. inversion L; subst. simpl in SP. exists e.
    split; [exact E|]. lia.
  - change (last (t0 :: t1 :: toks)) with (last (t1 :: toks)) in L.
    destruct (IH _ _ _ SP L) as (e' & E' & LO' & HI').
    exists e'. split; [exact E'|]. lia.
Qed.

Lemma existsb_eqb_In t types :
  existsb (TokenType.eqb t) types = true <-> In t types.
Proof.
  rewrite existsb_exists. split.
  - intros (x & IN & E). apply TokenType_eqb_eq in E. now subst.
  - intros IN. exists t. split; [exact IN|apply TokenType_eqb_refl].
Qed.

(** ** The further properties, one by one *)

(** *** The scanner *)

(** X1: the token pushed for a run of letters, whether it comes from an
    entry of the generator table or is an Identifier, starts where the run
    starts, has a non-empty value no longer than the run, and ends at its
    start plus the length of its value. *)
Theorem word_token_span w start t :
  wordValue w start = Return (Tok t) -> w <> EmptyString ->
  exists v, Token.value t = Some v /\
            Token.start t = Num start /\
            Token.end_ t = Num (start + String.length v) /\
            (1 <= String.length v <= String.length w)%nat.
Proof.
  intros H NE.
  destruct (wordValue_token _ _ _ H NE) as (v & V & S0 & E & LEN & _).
  exists v. auto.
Qed.

Lemma word_token_span_witness :
  let t := TOKENS_GENERATOR.function 3 in
  wordValue "function" 3 = Return (Tok t) /\ "function" <> EmptyString /\
  exists v, Token.value t = Some v /\
            Token.start t = Num 3 /\
            Token.end_ t = Num (3 + String.length v) /\
            (1 <= String.length v <= String.length "function")%nat.
Proof.
  intros t. split; [reflexivity|]. split; [discriminate|].
  apply (word_token_span "function" 3 t); [reflexivity|discriminate].
Defined.

(** X2: the generator that the single-character table gives for a
    character makes a token whose value is that character, with a span of
    width one, and whose type is none of the word types. *)
Theorem single_char_token_span c generator start :
  KNOWN_SINGLE_CHAR_TOKENS c = Some generator ->
  Token.value (generator start) = Some (String c EmptyString) /\
  Token.start (generator start) = Num start /\
  Token.end_ (generator start) = Num (start + 1) /\
  isWord (Token.type (generator start)) = false.
Proof. apply single_char_token. Qed.

Lemma single_char_token_span_witness :
  KNOWN_SINGLE_CHAR_TOKENS "{" = Some TOKENS_GENERATOR.leftCurly /\
  Token.value (TOKENS_GENERATOR.leftCurly 7) = Some (String "{" EmptyString) /\
  Token.start (TOKENS_GENERATOR.leftCurly 7) = Num 7 /\
  Token.end_ (TOKENS_GENERATOR.leftCurly 7) = Num (7 + 1) /\
  isWord (Token.type (TOKENS_GENERATOR.leftCurly 7)) = false.
Proof.
  split; [reflexivity|].
  apply (single_char_token_span "{" TOKENS_GENERATOR.leftCurly 7).
  reflexivity.
Defined.

(** X3: on a source made only of spaces, letters and the five
    single-character tokens, [tokenize] terminates: it returns or throws,
    whatever letters [isAlpha] accepts, as long as it rejects
    [undefined]. *)
Theorem tokenize_terminates_on_recognised isAlpha' source :
  isAlpha' None = false -> recognised isAlpha' source = true ->
  exists r, tokenizeReturns isAlpha' source r.
Proof. apply tokenize_recognised. Qed.

Lemma tokenize_terminates_on_recognised_witness :
  isAlpha None = false /\
  recognised isAlpha "let f = function g(x) { }" = true /\
  exists r, tokenizeReturns isAlpha "let f = function g(x) { }" r.
Proof.
  split; [reflexivity|]. split; [reflexivity|].
  apply (tokenize_terminates_on_recognised isAlpha
           "let f = function g(x) { }"); reflexivity.
Defined.

(** X4: a source that holds a character outside the three classes of the
    scanner never makes [tokenize] return tokens, wherever the character
    stands in the source. *)
Theorem tokenize_never_returns_on_unrecognised isAlpha' source pushed :
  recognised isAlpha' source = false ->
  ~ tokenizeReturns isAlpha' source (Return pushed).
Proof. apply tokenize_unrecognised. Qed.

Lemma tokenize_never_returns_on_unrecognised_witness :
  recognised isAlpha "let a = 1" = false /\
  ~ tokenizeReturns isAlpha "let a = 1" (Return []).
Proof.
  split; [reflexivity|].
  apply (tokenize_never_returns_on_unrecognised isAlpha "let a = 1" []).
  reflexivity.
Defined.

(** X5: the tokens that [tokenize] returns have non-empty spans inside the
    source, in the order of the source and without overlap: each token
    starts at or after the end of the one before it and the last ends at or
    before the length of the source. *)
Theorem tokenize_spans_ordered isAlpha' source pushed :
  tokenizeReturns isAlpha' source (Return pushed) ->
  spansFrom 0 pushed (String.length source).
Proof. apply tokenize_spans. Qed.

Lemma tokenize_spans_ordered_witness :
  let source := "let f = function g(x) { }" in
  let pushed :=
    map Tok
      [TOKENS_GENERATOR.let_ 0; TOKENS_GENERATOR.identifier 4 "f";
       TOKENS_GENERATOR.assign 6; TOKENS_GENERATOR.function 8;
       TOKENS_GENERATOR.identifier 17 "g"; TOKENS_GENERATOR.leftParen 18;
       TOKENS_GENERATOR.identifier 19 "x"; TOKENS_GENERATOR.rightParen 20;
       TOKENS_GENERATOR.leftCurly 22; TOKENS_GENERATOR.rightCurly 24] in
  tokenizeReturns isAlpha source (Return pushed) /\
  spansFrom 0 pushed (String.length source).
Proof.
  intros source pushed.
  assert (H : tokenizeReturns isAlpha source (Return pushed))
    by (exists 40; vm_compute; reflexivity).
  split; [exact H|].
  exact (tokenize_spans_ordered isAlpha source pushed H).
Defined.

(** X6: every Let, Function and Identifier token that [tokenize] returns
    carries as its value the text of the source over its own span. *)
Theorem tokenize_words_carry_source isAlpha' source pushed :
  tokenizeReturns isAlpha' source (Return pushed) ->
  Forall (carriesSource source) pushed.
Proof. apply tokenize_carries. Qed.

Lemma tokenize_words_carry_source_witness :
  let source := "let  abc = function(){}" in
  let pushed :=
    map Tok
      [TOKENS_GENERATOR.let_ 0; TOKENS_GENERATOR.identifier 5 "abc";
       TOKENS_GENERATOR.assign 9; TOKENS_GENERATOR.function 11;
       TOKENS_GENERATOR.leftParen 19; TOKENS_GENERATOR.rightParen 20;
       TOKENS_GENERATOR.leftCurly 21; TOKENS_GENERATOR.rightCurly 22] in
  tokenizeReturns isAlpha source (Return pushed) /\
  Forall (carriesSource source) pushed.
Proof.
  intros source pushed.
  assert (H : tokenizeReturns isAlpha source (Return pushed))
    by (exists 40; vm_compute; reflexivity).
  split; [exact H|].
  exact (tokenize_words_carry_source isAlpha source pushed H).
Defined.

(** X7: no Identifier token that [tokenize] returns is named by a key of
    the generator table, own or inherited, and none has an empty name. *)
Theorem tokenize_identifiers_named_freely isAlpha' source pushed :
  tokenizeReturns isAlpha' source (Return pushed) ->
  Forall namedFreely pushed.
Proof. apply tokenize_named. Qed.

Lemma tokenize_identifiers_named_freely_witness :
  let source := "assign lets x" in
  let pushed :=
    [Tok (TOKENS_GENERATOR.assign 0);
     Tok (TOKENS_GENERATOR.identifier 7 "lets");
     Tok (TOKENS_GENERATOR.identifier 12 "x")] in
  tokenizeReturns isAlpha source (Return pushed) /\
  Forall namedFreely pushed.
Proof.
  intros source pushed.
  assert (H : tokenizeReturns isAlpha source (Return pushed))
    by (exists 40; vm_compute; reflexivity).
  split; [exact H|].
  exact (tokenize_identifiers_named_freely isAlpha source pushed H).
Defined.

(** *** The parser *)

(** X8: [parse] terminates on every token array, whatever the tokens are:
    it returns or throws.  For [n] tokens every fuel from [5 * n + 6] on
    gives that answer, where the fuel bounds the depth of nested method
    calls and loop iterations (it is not a count of calls). *)
Theorem parse_terminates toks :
  exists r, forall fuel,
    fuelFor (List.length toks) <= fuel -> parseTokens fuel toks = Some r.
Proof.
  destruct (runParse_total toks) as [r E]. exists r. intros fuel LE.
  exact (parseTokens_fuel _ _ _ _ LE E).
Qed.

(** X9: [parse] returns a Program exactly when the types of the tokens
    derive from the grammar, and then the body has as many statements as
    the derivation has top-level declarations; token values and offsets
    play no part in acceptance. *)
Theorem parse_returns_iff_grammar toks n :
  (exists p, runParse toks = Some (Return p) /\ List.length (body p) = n)
  <-> StatementsG (map Token.type toks) n.
Proof.
  split.
  - intros (p & H & LEN).
    destruct (parseTokens_parsed _ _ _ H) as [_ G]. now rewrite LEN in G.
  - intros G.
    pose proof (Holds_newParser toks) as HOLD.
    destruct (methods_accept _ _ HOLD) as [_ ACC].
    destruct (ACC _ _ G) as [_ PROG].
    destruct (PROG 0 [] Infinity eq_refl)
      as (fuel0 & new & end' & j & LEN & RUN).
    specialize (RUN fuel0 (Nat.le_refl _)).
    exists (mkProgram new (Num 0) end'). split; [|exact LEN].
    apply runParse_parseTokens with (fuel := fuel0).
    apply parseTokens_run. exists j. exact RUN.
Qed.

(** X10: [parse] returns the Program [p] exactly when [p] is the tree of
    the tokens: its statements cover all the tokens, each node built from
    the tokens at its place, the Program starts at 0 and ends where the
    last token ends ([Infinity] when there is none). *)
Theorem parse_returns_iff_tree toks p :
  runParse toks = Some (Return p) <-> ProgramParsed toks p.
Proof.
  split.
  - intros H. exact (proj1 (parseTokens_parsed _ _ _ H)).
  - apply parsed_parseTokens.
Qed.

(** X11: parsing composes over concatenation: when two token arrays each
    parse to a Program, their concatenation parses to the Program whose
    body is the two bodies one after the other, unchanged, and which ends
    where the last token of the concatenation ends. *)
Theorem parse_concatenation toks1 toks2 p1 p2 :
  runParse toks1 = Some (Return p1) ->
  runParse toks2 = Some (Return p2) ->
  runParse (toks1 ++ toks2) =
    Some (Return (mkProgram (body p1 ++ body p2) (Num 0)
                    (endOf (toks1 ++ toks2)))).
Proof.
  intros H1 H2.
  destruct (parseTokens_parsed _ _ _ H1) as [(PS1 & _ & _) _].
  destruct (parseTokens_parsed _ _ _ H2) as [(PS2 & _ & _) _].
  apply parsed_parseTokens. split; [|split; reflexivity]. simpl.
  destruct (Parsed_app_l toks1 toks2) as (_ & _ & _ & L).
  destruct (Parsed_shift toks1 toks2) as (_ & _ & _ & R).
  apply L in PS1. apply R in PS2. rewrite Nat.add_0_r in PS2.
  rewrite length_app. exact (StatementsParsed_app _ _ _ _ _ _ PS1 PS2).
Qed.

Lemma parse_concatenation_witness :
  let toks1 :=
    [TOKENS_GENERATOR.let_ 0; TOKENS_GENERATOR.identifier 4 "a";
     TOKENS_GENERATOR.assign 6; TOKENS_GENERATOR.function 8;
     TOKENS_GENERATOR.leftParen 16; TOKENS_GENERATOR.rightParen 17;
     TOKENS_GENERATOR.leftCurly 19; TOKENS_GENERATOR.rightCurly 20] in
  let toks2 :=
    [TOKENS_GENERATOR.let_ 22; TOKENS_GENERATOR.identifier 26 "b";
     TOKENS_GENERATOR.assign 28; TOKENS_GENERATOR.function 30;
     TOKENS_GENERATOR.identifier 39 "b"; TOKENS_GENERATOR.leftParen 40;
     TOKENS_GENERATOR.rightParen 41; TOKENS_GENERATOR.leftCurly 43;
     TOKENS_GENERATOR.rightCurly 44] in
  let p1 :=
    mkProgram
      [VariableDeclaration (Some "let")
         [mkVariableDeclarator (mkIdentifier (Some "a") (Num 4) (Num 5))
            (mkFunctionExpression None []
               (mkBlockStatement [] (Num 19) (Num 21)) (Num 8) (Num 21))
            (Num 0) (Num 21)]
         (Num 0) (Num 21)]
      (Num 0) (Num 21) in
  let p2 :=
    mkProgram
      [VariableDeclaration (Some "let")
         [mkVariableDeclarator (mkIdentifier (Some "b") (Num 26) (Num 27))
            (mkFunctionExpression
               (Some (mkIdentifier (Some "b") (Num 39) (Num 40))) []
               (mkBlockStatement [] (Num 43) (Num 45)) (Num 30) (Num 45))
            (Num 22) (Num 45)]
         (Num 22) (Num 45)]
      (Num 0) (Num 45) in
  runParse toks1 = Some (Return p1) /\
  runParse toks2 = Some (Return p2) /\
  runParse (toks1 ++ toks2) =
    Some (Return (mkProgram (body p1 ++ body p2) (Num 0)
                    (endOf (toks1 ++ toks2)))).
Proof.
  intros toks1 toks2 p1 p2.
  assert (H1 : runParse toks1 = Some (Return p1))
    by (vm_compute; reflexivity).
  assert (H2 : runParse toks2 = Some (Return p2))
    by (vm_compute; reflexivity).
  split; [exact H1|]. split; [exact H2|].
  exact (parse_concatenation toks1 toks2 p1 p2 H1 H2).
Defined.

(** X12: from source to tree: when [tokenize] returns tokens for a source
    and [parse] returns a Program for them, the Program of a source with a
    token ends at a finite offset inside the source, and the body is not
    empty. *)
Theorem parse_of_tokenize_end isAlpha' source toks p :
  tokenizeReturns isAlpha' source (Return (map Tok toks)) ->
  runParse toks = Some (Return p) -> toks <> [] ->
  body p <> [] /\
  exists e, programEnd p = Num e /\ 0 < e <= String.length source.
Proof.
  intros T H NE.
  destruct (parseTokens_parsed _ _ _ H) as [(PS & _ & EN) _].
  split.
  - intros B. rewrite B in PS. inversion PS as [i E|]; subst.
    destruct toks; [now apply NE|discriminate].
  - pose proof (tokenize_spans _ _ _ T) as SP.
    unfold endOf in EN. destruct (last toks) as [t|] eqn:L.
    + destruct (spansFrom_last _ _ _ _ SP L) as (e & E & LO & HI).
      exists e. rewrite EN. split; [exact E|]. lia.
    + apply last_None in L. now destruct (NE L).
Qed.

Lemma parse_of_tokenize_end_witness :
  let source := "let a = function() {}  " in
  let toks :=
    [TOKENS_GENERATOR.let_ 0; TOKENS_GENERATOR.identifier 4 "a";
     TOKENS_GENERATOR.assign 6; TOKENS_GENERATOR.function 8;
     TOKENS_GENERATOR.leftParen 16; TOKENS_GENERATOR.rightParen 17;
     TOKENS_GENERATOR.leftCurly 19; TOKENS_GENERATOR.rightCurly 20] in
  let p :=
    mkProgram
      [VariableDeclaration (Some "let")
         [mkVariableDeclarator (mkIdentifier (Some "a") (Num 4) (Num 5))
            (mkFunctionExpression None []
               (mkBlockStatement [] (Num 19) (Num 21)) (Num 8) (Num 21))
            (Num 0) (Num 21)]
         (Num 0) (Num 21)]
      (Num 0) (Num 21) in
  tokenizeReturns isAlpha source (Return (map Tok toks)) /\
  runParse toks = Some (Return p) /\ toks <> [] /\
  body p <> [] /\
  exists e, programEnd p = Num e /\ 0 < e <= String.length source.
Proof.
  intros source toks p.
  assert (T : tokenizeReturns isAlpha source (Return (map Tok toks)))
    by (exists 40; vm_compute; reflexivity).
  assert (H : runParse toks = Some (Return p)) by (vm_compute; reflexivity).
  assert (NE : toks <> []) by discriminate.
  split; [exact T|]. split; [exact H|]. split; [exact NE|].
  exact (parse_of_tokenize_end isAlpha source toks p T H NE).
Defined.

(** X13: [#checkCurrentTokenType] never throws and never moves the cursor,
    also past the last token; it answers true exactly when there is a
    current token and its type is the expected type or a member of the
    expected array. *)
Theorem checkCurrentTokenType_answers σ toks type :
  Holds σ toks ->
  exists b, checkCurrentTokenType type σ = Some (Return b, σ) /\
            (b = true <->
             exists t, toks !! currentIndex σ = Some t /\
                       expects type (Token.type t)).
Proof.
  intros [AT LEN]. unfold checkCurrentTokenType, bind, isEnd.
  rewrite LEN. destruct (List.length toks <=? currentIndex σ)%nat eqn:E.
  - exists false. split; [reflexivity|]. apply Nat.leb_le in E.
    rewrite (lookup_ge_None_2 toks (currentIndex σ)) by lia.
    split; [discriminate|]. intros (t & L & _). discriminate.
  - apply Nat.leb_gt in E. unfold currentToken. rewrite AT.
    destruct (lookup_lt_is_Some_2 toks (currentIndex σ) E) as [t L].
    rewrite L. simpl. eexists. split; [reflexivity|].
    destruct type as [type'|types]; simpl.
    + rewrite negb_involutive, TokenType_eqb_eq. split.
      * intros Q. exists t. auto.
      * intros (t' & L' & Q). now inversion L'; subst.
    + rewrite existsb_eqb_In. split.
      * intros Q. exists t. auto.
      * intros (t' & L' & Q). now inversion L'; subst.
Qed.

Lemma checkCurrentTokenType_answers_witness :
  let toks := [TOKENS_GENERATOR.let_ 0] in
  let σ := newParser (storeOf toks) (seq 0 (List.length toks)) in
  let type := Many [TokenType.Let; TokenType.Function] in
  Holds σ toks /\
  exists b, checkCurrentTokenType type σ = Some (Return b, σ) /\
            (b = true <->
             exists t, toks !! currentIndex σ = Some t /\
                       expects type (Token.type t)).
Proof.
  intros toks σ type.
  split; [exact (Holds_newParser toks)|].
  exact (checkCurrentTokenType_answers σ toks type (Holds_newParser toks)).
Defined.

(** X14: what [#goNext] can do: it returns only the current token, only
    when a single type is expected that is the token's own, and then the
    cursor has advanced by one; whenever it throws the cursor has not
    moved: a [TypeError] past the last token, and on a token the error
    that names the expected and the actual type. *)
Theorem goNext_outcome σ toks type r σ' :
  Holds σ toks -> goNext type σ = Some (r, σ') ->
  match r with
  | Return t =>
      toks !! currentIndex σ = Some t /\ type = One (Token.type t) /\
      σ' = setIndex σ (S (currentIndex σ))
  | Throw TypeError => toks !! currentIndex σ = None /\ σ' = σ
  | Throw (Error message) =>
      (exists t, toks !! currentIndex σ = Some t /\
                 type <> One (Token.type t) /\
                 message = expectMessage type (Token.type t)) /\
      σ' = σ
  end.
Proof.
  intros [AT _] H. unfold goNext, bind, currentToken in H.
  rewrite AT in H. destruct (toks !! currentIndex σ) as [t|] eqn:L.
  - simpl in H. destruct type as [type'|types]; simpl in H.
    + destruct (TokenType.eqb (Token.type t) type') eqn:E; simpl in H;
        inversion H; subst.
      * apply TokenType_eqb_eq in E. subst. auto.
      * split; [|reflexivity]. exists t. split; [reflexivity|].
        split; [|reflexivity]. intros Q. inversion Q; subst.
        now rewrite TokenType_eqb_refl in E.
    + destruct (existsb _ types); simpl in H; inversion H; subst;
        (split; [|reflexivity]); exists t;
        (split; [reflexivity|]); (split; [discriminate|reflexivity]).
  - simpl in H. inversion H; subst. auto.
Qed.

Lemma goNext_outcome_witness :
  let toks := [TOKENS_GENERATOR.let_ 0; TOKENS_GENERATOR.identifier 4 "a"] in
  let σ := newParser (storeOf toks) (seq 0 (List.length toks)) in
  let t := TOKENS_GENERATOR.let_ 0 in
  Holds σ toks /\
  goNext (One TokenType.Let) σ = Some (Return t, setIndex σ 1) /\
  toks !! currentIndex σ = Some t /\
  One TokenType.Let = One (Token.type t) /\
  setIndex σ 1 = setIndex σ (S (currentIndex σ)).
Proof.
  intros toks σ t.
  assert (H : goNext (One TokenType.Let) σ = Some (Return t, setIndex σ 1))
    by reflexivity.
  split; [exact (Holds_newParser toks)|]. split; [exact H|].
  exact (goNext_outcome σ toks (One TokenType.Let) (Return t)
           (setIndex σ 1) (Holds_newParser toks) H).
Defined.
